(** * AgentForge admin activity feed

    A shallow embedding of the real-time administrative activity feed.

    - [WebSocketService] embeds the browser-side reconnection agent,
      [WebSocketServiceClass] of
      [frontend/src/services/HealthService.js]: the object's six fields,
      its methods and the four socket callbacks, run against an explicit
      model of the browser (sockets with their [readyState], pending
      [setTimeout]s, running [setInterval]s, frames sent, handler calls).
    - [ActivityFeed] holds the server side (event log store, broadcaster,
      session manager), which lives in [backend/app/websocket/] and is
      modelled from the design document. *)

From Stdlib Require Import QArith Qminmax.
From stdpp Require Import base option list strings gmap sorting.

Set Default Proof Using "Type".
Set Warnings "-register-all".

(* ===================================================================== *)
(** * The client reconnection agent *)
(* ===================================================================== *)

Module WebSocketService.

(** ** Values *)

(** What [JSON.parse] can return. An object is the list of its members;
    a parsed object has each key once. *)
Inductive json :=
| JNull
| JBool (b : bool)
| JNum (q : Q)
| JStr (s : string)
| JArr (items : list json)
| JObj (members : list (string * json)).

(** [e.data] of a message event, given by what [JSON.parse] makes of it:
    the parser is the engine's, so the model takes its outcome as the
    input. [unparseable] is the text on which it throws [SyntaxError]. *)
Inductive MessageData :=
| unparseable
| parses_to (v : json).

Inductive exn :=
| SyntaxError
| TypeError
| HandlerError (h : nat).

(** Completion of a JS statement list: it returns or it throws. Writes
    made before a throw stay. *)
Inductive outcome (A : Type) :=
| Return (a : A)
| Throw (e : exn).
Arguments Return {A} a.
Arguments Throw {A} e.

(** [WebSocket.readyState]: 0, 1, 2, 3. *)
Inductive ReadyState := CONNECTING | OPEN | CLOSING | CLOSED.

#[global] Instance ReadyState_eq_dec : EqDecision ReadyState.
Proof. solve_decision. Defined.

(** A caller's [onEvent] callback: a name to tell callbacks apart and the
    messages on which it throws. Callbacks do not call back into the
    service. *)
Record Handler := { hname : nat; hthrows : json -> bool }.

(** ** State *)

(** The fields the constructor sets. [ws] is a handle into the browser's
    sockets; [_pingInterval] is the id [setInterval] returned. *)
Record Agent := {
  ws : option nat;
  listeners : list Handler;
  reconnectDelay : Q;
  maxDelay : Q;
  shouldReconnect : bool;
  _pingInterval : option positive;
}.

(** The browser around the object. Timer ids are positive integers, so a
    stored id is always truthy. A timeout's callback is always
    [() => this._connect()] and an interval's is always the ping closure of
    [_startPing], so only ids and durations are kept. [sent] and [calls]
    grow at the end. *)
Record Browser := {
  sockets : list ReadyState;
  timeouts : list (positive * Q);
  intervals : list (positive * Q);
  next_timer : positive;
  sent : list (nat * string);
  calls : list (nat * json);
}.

Record World := { this : Agent; env : Browser }.

Definition set_ws (v : option nat) (w : World) : World :=
  {| this := {| ws := v;
                listeners := listeners (this w);
                reconnectDelay := reconnectDelay (this w);
                maxDelay := maxDelay (this w);
                shouldReconnect := shouldReconnect (this w);
                _pingInterval := _pingInterval (this w) |};
     env := env w |}.

Definition set_listeners (v : list Handler) (w : World) : World :=
  {| this := {| ws := ws (this w);
                listeners := v;
                reconnectDelay := reconnectDelay (this w);
                maxDelay := maxDelay (this w);
                shouldReconnect := shouldReconnect (this w);
                _pingInterval := _pingInterval (this w) |};
     env := env w |}.

Definition set_reconnectDelay (v : Q) (w : World) : World :=
  {| this := {| ws := ws (this w);
                listeners := listeners (this w);
                reconnectDelay := v;
                maxDelay := maxDelay (this w);
                shouldReconnect := shouldReconnect (this w);
                _pingInterval := _pingInterval (this w) |};
     env := env w |}.

Definition set_shouldReconnect (v : bool) (w : World) : World :=
  {| this := {| ws := ws (this w);
                listeners := listeners (this w);
                reconnectDelay := reconnectDelay (this w);
                maxDelay := maxDelay (this w);
                shouldReconnect := v;
                _pingInterval := _pingInterval (this w) |};
     env := env w |}.

Definition set_pingInterval (v : option positive) (w : World) : World :=
  {| this := {| ws := ws (this w);
                listeners := listeners (this w);
                reconnectDelay := reconnectDelay (this w);
                maxDelay := maxDelay (this w);
                shouldReconnect := shouldReconnect (this w);
                _pingInterval := v |};
     env := env w |}.

Definition set_sockets (v : list ReadyState) (w : World) : World :=
  {| this := this w;
     env := {| sockets := v;
               timeouts := timeouts (env w);
               intervals := intervals (env w);
               next_timer := next_timer (env w);
               sent := sent (env w);
               calls := calls (env w) |} |}.

Definition set_timeouts (v : list (positive * Q)) (w : World) : World :=
  {| this := this w;
     env := {| sockets := sockets (env w);
               timeouts := v;
               intervals := intervals (env w);
               next_timer := next_timer (env w);
               sent := sent (env w);
               calls := calls (env w) |} |}.

Definition set_intervals (v : list (positive * Q)) (w : World) : World :=
  {| this := this w;
     env := {| sockets := sockets (env w);
               timeouts := timeouts (env w);
               intervals := v;
               next_timer := next_timer (env w);
               sent := sent (env w);
               calls := calls (env w) |} |}.

Definition set_next_timer (v : positive) (w : World) : World :=
  {| this := this w;
     env := {| sockets := sockets (env w);
               timeouts := timeouts (env w);
               intervals := intervals (env w);
               next_timer := v;
               sent := sent (env w);
               calls := calls (env w) |} |}.

Definition set_sent (v : list (nat * string)) (w : World) : World :=
  {| this := this w;
     env := {| sockets := sockets (env w);
               timeouts := timeouts (env w);
               intervals := intervals (env w);
               next_timer := next_timer (env w);
               sent := v;
               calls := calls (env w) |} |}.

Definition set_calls (v : list (nat * json)) (w : World) : World :=
  {| this := this w;
     env := {| sockets := sockets (env w);
               timeouts := timeouts (env w);
               intervals := intervals (env w);
               next_timer := next_timer (env w);
               sent := sent (env w);
               calls := v |} |}.

(** [constructor()] on a page that has not yet touched sockets or timers. *)
Definition constructor : World :=
  {| this := {| ws := None;
                listeners := [];
                reconnectDelay := 2000;
                maxDelay := 30000;
                shouldReconnect := false;
                _pingInterval := None |};
     env := {| sockets := [];
               timeouts := [];
               intervals := [];
               next_timer := 1%positive;
               sent := [];
               calls := [] |} |}.

(** ** Statements *)

(** A method body: a world transformer with a completion. *)
Definition M (A : Type) : Type := World -> World * outcome A.

Definition ret {A} (a : A) : M A := fun w => (w, Return a).
Definition throw {A} (e : exn) : M A := fun w => (w, Throw e).
Definition bind {A B} (m : M A) (k : A -> M B) : M B :=
  fun w => match m w with
           | (w', Return a) => k a w'
           | (w', Throw e) => (w', Throw e)
           end.
Definition modify (f : World -> World) : M unit := fun w => (f w, Return tt).
Definition gets {A} (f : World -> A) : M A := fun w => (w, Return (f w)).

(** [try { m } catch (_) {}] *)
Definition try_catch_ignore (m : M unit) : M unit :=
  fun w => match m w with
           | (w', Return a) => (w', Return a)
           | (w', Throw _) => (w', Return tt)
           end.

#[global] Instance M_ret : MRet M := @ret.
#[global] Instance M_bind : MBind M := fun A B k m => bind m k.

(** ** Browser primitives *)

(** [new WebSocket(url)]: a fresh socket in state CONNECTING, or an
    exception when the constructor refuses ([ok = false]). *)
Definition new_WebSocket (ok : bool) : M nat :=
  fun w => if ok
           then (set_sockets (sockets (env w) ++ [CONNECTING]) w,
                 Return (length (sockets (env w))))
           else (w, Throw SyntaxError).

Definition readyState (s : nat) (w : World) : option ReadyState :=
  sockets (env w) !! s.

(** [socket.close()] with no argument: nothing on a socket that is
    closing or closed, else the closing handshake starts. It takes no
    argument here and so never throws. *)
Definition ws_close (s : nat) : M unit :=
  modify (fun w => match readyState s w with
                   | Some CONNECTING | Some OPEN =>
                       set_sockets (<[s := CLOSING]> (sockets (env w))) w
                   | _ => w
                   end).

(** [socket.send(text)] on an open socket. *)
Definition ws_send (s : nat) (text : string) : M unit :=
  modify (fun w => set_sent (sent (env w) ++ [(s, text)]) w).

Definition setTimeout (delay : Q) : M positive :=
  fun w => let id := next_timer (env w) in
           (set_next_timer (Pos.succ id)
              (set_timeouts (timeouts (env w) ++ [(id, delay)]) w),
            Return id).

Definition setInterval (period : Q) : M positive :=
  fun w => let id := next_timer (env w) in
           (set_next_timer (Pos.succ id)
              (set_intervals (intervals (env w) ++ [(id, period)]) w),
            Return id).

Definition remove_timer (id : positive) (l : list (positive * Q)) :=
  filter (fun t => t.1 <> id) l.

Definition clearInterval (id : positive) : M unit :=
  modify (fun w => set_intervals (remove_timer id (intervals (env w))) w).

Definition has_timer (id : positive) (l : list (positive * Q)) : bool :=
  bool_decide (id ∈ l.*1).

(** ** Reading a message *)

Fixpoint member (k : string) (ms : list (string * json)) : option json :=
  match ms with
  | [] => None
  | (k', v) :: rest => if String.eqb k k' then Some v else member k rest
  end.

(** [data.type]: a [TypeError] on [null], the member on an object,
    [undefined] ([None]) on anything else. *)
Definition get_type (data : json) : outcome (option json) :=
  match data with
  | JNull => Throw TypeError
  | JObj ms => Return (member "type" ms)
  | _ => Return None
  end.

(** [x === "pong"] *)
Definition is_pong (x : option json) : bool :=
  match x with
  | Some (JStr s) => String.eqb s "pong"
  | _ => false
  end.

Definition JSON_parse (d : MessageData) : M json :=
  match d with
  | unparseable => throw SyntaxError
  | parses_to v => ret v
  end.

(** [fn(data)] *)
Definition call (fn : Handler) (data : json) : M unit :=
  modify (fun w => set_calls (calls (env w) ++ [(hname fn, data)]) w) ;;
  if hthrows fn data then throw (HandlerError (hname fn)) else ret tt.

(** [fns.forEach((fn) => fn(data))] *)
Fixpoint forEach (fns : list Handler) (data : json) : M unit :=
  match fns with
  | [] => ret tt
  | fn :: rest => call fn data ;; forEach rest data
  end.

(** ** The class *)

Definition _stopPing : M unit :=
  p ← gets (fun w => _pingInterval (this w));
  match p with
  | Some id => clearInterval id ;; modify (set_pingInterval None)
  | None => ret tt
  end.

(** The closure [_startPing] hands to [setInterval]. *)
Definition ping_tick : M unit :=
  s ← gets (fun w => ws (this w));
  match s with
  | Some s =>
      r ← gets (readyState s);
      if decide (r = Some OPEN) then ws_send s "ping" else ret tt
  | None => ret tt
  end.

Definition _startPing : M unit :=
  id ← setInterval 25000;
  modify (set_pingInterval (Some id)).

Definition onopen : M unit :=
  modify (set_reconnectDelay 2000) ;;
  _startPing.

Definition onmessage (e_data : MessageData) : M unit :=
  try_catch_ignore (
    data ← JSON_parse e_data;
    match get_type data with
    | Throw e => throw e
    | Return ty =>
        if is_pong ty then ret tt
        else fns ← gets (fun w => listeners (this w));
             forEach fns data
    end).

(** [Math.min(a, b)] on the delays. Every delay the object can hold is a
    multiple of a quarter of a millisecond below 2^15 (see
    [delay_ladder]), and its product by 1.5 a multiple of an eighth below
    2^16: a double holds both exactly, so the arithmetic is done on
    rationals, kept in lowest terms. *)
Definition Math_min (a b : Q) : Q := Qred (Qmin a b).

Definition onclose : M unit :=
  _stopPing ;;
  r ← gets (fun w => shouldReconnect (this w));
  if r : bool then
    d ← gets (fun w => reconnectDelay (this w));
    _ ← setTimeout d;
    m ← gets (fun w => maxDelay (this w));
    modify (set_reconnectDelay (Math_min (d * 1.5) m))
  else ret tt.

(** [this.ws.close()]: the service's current socket, not the one the
    event is for; a [TypeError] when the field is null. *)
Definition onerror : M unit :=
  s ← gets (fun w => ws (this w));
  match s with
  | Some s => ws_close s
  | None => throw TypeError
  end.

(** [_connect()]; [ctor] tells whether [new WebSocket(url)] succeeds. The
    four callbacks installed on the new socket are the closures above. *)
Definition _connect (ctor : bool) : M unit :=
  try_catch_ignore (
    s ← new_WebSocket ctor;
    modify (set_ws (Some s))).

Definition connect (onEvent : Handler) (ctor : bool) : M unit :=
  modify (set_shouldReconnect true) ;;
  modify (set_listeners [onEvent]) ;;
  _connect ctor.

Definition disconnect : M unit :=
  modify (set_shouldReconnect false) ;;
  _stopPing ;;
  s ← gets (fun w => ws (this w));
  match s with
  | Some s => ws_close s ;; modify (set_ws None)
  | None => ret tt
  end.

(** ** The event loop *)

(** What can happen to the service: a caller invokes a public method, or
    the browser runs one of the callbacks. *)
Inductive Event :=
| call_connect (onEvent : Handler) (ctor : bool)
| call_disconnect
| socket_open (s : nat)
| socket_message (s : nat) (d : MessageData)
| socket_error (s : nat)
| socket_close (s : nat)
| timeout_fires (id : positive) (ctor : bool)
| interval_fires (id : positive).

(** One task of the event loop. The browser opens only a connecting
    socket, delivers messages only on an open one, and closes a socket
    once; an error may be reported on any socket the page has made; a
    timeout fires once, an interval as long as it is not cleared. An event
    that cannot happen in the current world does nothing. *)
Definition dispatch (ev : Event) : M unit :=
  match ev with
  | call_connect onEvent ctor => connect onEvent ctor
  | call_disconnect => disconnect
  | socket_open s =>
      r ← gets (readyState s);
      if decide (r = Some CONNECTING)
      then modify (fun w => set_sockets (<[s := OPEN]> (sockets (env w))) w) ;;
           onopen
      else ret tt
  | socket_message s d =>
      r ← gets (readyState s);
      if decide (r = Some OPEN) then onmessage d else ret tt
  | socket_error s =>
      r ← gets (readyState s);
      if decide (r = None) then ret tt else onerror
  | socket_close s =>
      r ← gets (readyState s);
      if decide (r = None \/ r = Some CLOSED) then ret tt
      else modify (fun w => set_sockets (<[s := CLOSED]> (sockets (env w))) w) ;;
           onclose
  | timeout_fires id ctor =>
      ts ← gets (fun w => timeouts (env w));
      if has_timer id ts
      then modify (set_timeouts (remove_timer id ts)) ;; _connect ctor
      else ret tt
  | interval_fires id =>
      ts ← gets (fun w => intervals (env w));
      if has_timer id ts then ping_tick else ret tt
  end.

(** An exception that leaves a callback is reported and dropped; the loop
    goes on with the world as the callback left it. *)
Definition step (w : World) (ev : Event) : World := (dispatch ev w).1.

Definition run (evs : list Event) (w : World) : World := foldl step w evs.

Definition reachable (w : World) : Prop := exists evs, w = run evs constructor.

(** ** Vocabulary of the claims *)

(** The service is stopped: no intent, no socket, no keepalive. *)
Definition stopped (w : World) : Prop :=
  shouldReconnect (this w) = false /\ ws (this w) = None /\
  _pingInterval (this w) = None.

(** The message is a JSON object whose [type] member is the string
    ["pong"]: the server's keepalive acknowledgement. *)
Definition has_pong_type (v : json) : bool :=
  match v with
  | JObj ms => is_pong (member "type" ms)
  | _ => false
  end.

(** The value a message hands to the caller's handler, if any. *)
Definition forwardable (d : MessageData) : option json :=
  match d with
  | unparseable => None
  | parses_to JNull => None
  | parses_to v => if has_pong_type v then None else Some v
  end.

(** The callbacks [forEach] gets to call: all up to the first that throws. *)
Fixpoint called (fns : list Handler) (data : json) : list Handler :=
  match fns with
  | [] => []
  | fn :: rest => fn :: (if hthrows fn data then [] else called rest data)
  end.

Definition log_calls (l : list (nat * json)) (w : World) : World :=
  set_calls (calls (env w) ++ l) w.

Definition forwarded_calls (fns : list Handler) (d : MessageData)
  : list (nat * json) :=
  match forwardable d with
  | Some v => (fun fn => (hname fn, v)) <$> called fns v
  | None => []
  end.

Definition forwarded_to (h : Handler) (d : MessageData) : list (nat * json) :=
  match forwardable d with
  | Some v => [(hname h, v)]
  | None => []
  end.

(** Frames the service sends in one task: a ping, from the interval
    callback, on the current socket when that socket is open. *)
Definition frames_of (w : World) (ev : Event) : list (nat * string) :=
  match ev with
  | interval_fires id =>
      if has_timer id (intervals (env w)) then
        match ws (this w) with
        | Some s => if decide (readyState s w = Some OPEN)
                    then [(s, "ping")] else []
        | None => []
        end
      else []
  | _ => []
  end.

(** Handler calls made in one task. *)
Definition calls_of (w : World) (ev : Event) : list (nat * json) :=
  match ev with
  | socket_message s d =>
      if decide (readyState s w = Some OPEN)
      then forwarded_calls (listeners (this w)) d else []
  | _ => []
  end.

Definition is_connect (ev : Event) : bool :=
  match ev with call_connect _ _ => true | _ => false end.

(** The delays the service can hold: 2000 grown by 1.5 until the cap. *)
Definition delay_ladder : list Q :=
  [2000; 3000; 4500; 6750; 10125; 30375 # 2; 91125 # 4; 30000]%Q.

Definition delay_ok (w : World) : Prop :=
  reconnectDelay (this w) ∈ delay_ladder /\ maxDelay (this w) = 30000%Q.

(** The handshake is over for the socket: it is closing or closed. *)
Definition finished (s : nat) (w : World) : Prop :=
  readyState s w = Some CLOSING \/ readyState s w = Some CLOSED.

(** A connected service used in the examples: one handler, socket 0 open. *)
Definition quiet : Handler := {| hname := 7; hthrows := fun _ => false |}.
Definition connected : World :=
  run [call_connect quiet true; socket_open 0] constructor.

(** ** Proof support *)

Ltac unfold_M :=
  unfold mbind, M_bind, bind, mret, M_ret, ret, modify, gets, throw,
    try_catch_ignore in *.

Ltac destruct_world w :=
  let a := fresh "a" in let b := fresh "b" in
  destruct w as [a b]; destruct a, b; cbn in *.

Lemma disconnect_stopped (w : World) :
  stopped w -> disconnect w = (w, Return tt).
Proof.
  intros (H1 & H2 & H3). destruct_world w. subst. reflexivity.
Qed.

Lemma disconnect_returns (w : World) :
  exists w', disconnect w = (w', Return tt) /\ stopped w'.
Proof.
  destruct_world w. unfold disconnect, _stopPing, ws_close, clearInterval.
  unfold_M. cbn.
  destruct _pingInterval0, ws0; cbn; repeat case_match;
    eexists; (split; [reflexivity|]); repeat split.
Qed.

(** *** Messages *)

Lemma log_calls_nil (w : World) : log_calls [] w = w.
Proof. destruct_world w. unfold log_calls, set_calls. cbn. by rewrite app_nil_r. Qed.

Lemma log_calls_app (l1 l2 : list (nat * json)) (w : World) :
  log_calls l2 (log_calls l1 w) = log_calls (l1 ++ l2) w.
Proof. unfold log_calls, set_calls. cbn. by rewrite app_assoc. Qed.

Lemma forEach_spec (fns : list Handler) (data : json) (w : World) :
  (forEach fns data w).1 =
  log_calls ((fun fn => (hname fn, data)) <$> called fns data) w.
Proof.
  revert w. induction fns as [|fn rest IH]; intros w; cbn.
  - by rewrite log_calls_nil.
  - unfold call. unfold_M. cbn. destruct (hthrows fn data); cbn.
    + reflexivity.
    + rewrite IH. unfold log_calls, set_calls. cbn. by rewrite <- app_assoc.
Qed.

Lemma onmessage_spec (d : MessageData) (w : World) :
  onmessage d w = (log_calls (forwarded_calls (listeners (this w)) d) w, Return tt).
Proof.
  unfold onmessage, forwarded_calls, JSON_parse. unfold_M.
  destruct d as [|v]; cbn.
  - by rewrite log_calls_nil.
  - pose proof (forEach_spec (listeners (this w)) v w) as HF.
    destruct v as [|b|q|s|items|ms]; cbn;
      [by rewrite log_calls_nil| | | | |
       destruct (is_pong (member "type" ms)); [by rewrite log_calls_nil|]].
    all: destruct (forEach _ _ w) as [w' [[]|]]; cbn in HF; by subst.
Qed.

(** *** What one task changes *)

Ltac unfold_class :=
  unfold step, dispatch, connect, disconnect, _connect, onopen, onclose,
    onerror, _startPing, _stopPing, ping_tick, ws_close, ws_send,
    setTimeout, setInterval, clearInterval, new_WebSocket in *;
  unfold_M.

Ltac crush_step :=
  unfold_class; cbn; repeat (case_match; simplify_eq/=); try done.

Lemma step_message (w : World) (s : nat) (d : MessageData) :
  step w (socket_message s d) =
  if decide (readyState s w = Some OPEN)
  then log_calls (forwarded_calls (listeners (this w)) d) w
  else w.
Proof.
  unfold step, dispatch. unfold_M. cbn.
  destruct (decide (readyState s w = Some OPEN)); [|done].
  by rewrite onmessage_spec.
Qed.

Lemma step_sent (w : World) (ev : Event) :
  sent (env (step w ev)) = sent (env w) ++ frames_of w ev.
Proof.
  destruct ev; try rewrite step_message; unfold frames_of;
    try (crush_step; by rewrite app_nil_r).
Qed.

Lemma step_calls (w : World) (ev : Event) :
  calls (env (step w ev)) = calls (env w) ++ calls_of w ev.
Proof.
  destruct ev; try rewrite step_message; unfold calls_of;
    try (crush_step; by rewrite app_nil_r).
Qed.

Lemma step_listeners (w : World) (ev : Event) :
  listeners (this (step w ev)) =
  match ev with
  | call_connect onEvent _ => [onEvent]
  | _ => listeners (this w)
  end.
Proof.
  destruct ev; try rewrite step_message; crush_step.
Qed.

Lemma step_maxDelay (w : World) (ev : Event) :
  maxDelay (this (step w ev)) = maxDelay (this w).
Proof.
  destruct ev; try rewrite step_message; crush_step.
Qed.

(** *** Runs *)

Lemma run_cons (ev : Event) (evs : list Event) (w : World) :
  run (ev :: evs) w = run evs (step w ev).
Proof. reflexivity. Qed.

Lemma run_snoc (evs : list Event) (ev : Event) (w : World) :
  run (evs ++ [ev]) w = step (run evs w) ev.
Proof. unfold run. by rewrite foldl_app. Qed.

(** A property kept by every task holds all along a run. *)
Lemma run_invariant (P : World -> Prop) :
  (forall w ev, P w -> P (step w ev)) ->
  forall evs w, P w -> P (run evs w).
Proof.
  intros Hstep evs. induction evs as [|ev evs IH]; intros w Hw; [done|].
  rewrite run_cons. auto.
Qed.

Lemma reachable_invariant (P : World -> Prop) :
  P constructor -> (forall w ev, P w -> P (step w ev)) ->
  forall w, reachable w -> P w.
Proof. intros H0 Hstep w [evs ->]. by apply run_invariant. Qed.

(** *** One registered handler *)

Lemma forwarded_calls_single (h : Handler) (d : MessageData) :
  forwarded_calls [h] d = forwarded_to h d.
Proof.
  unfold forwarded_calls, forwarded_to. destruct (forwardable d); [|done].
  cbn. by destruct (hthrows h j).
Qed.

Lemma run_messages (s : nat) (h : Handler) (ds : list MessageData) (w : World) :
  readyState s w = Some OPEN -> listeners (this w) = [h] ->
  run (socket_message s <$> ds) w = log_calls (ds ≫= forwarded_to h) w.
Proof.
  revert w. induction ds as [|d ds IH]; intros w Ho Hl.
  - cbn. by rewrite log_calls_nil.
  - rewrite fmap_cons, run_cons, step_message, decide_True by done.
    rewrite Hl, forwarded_calls_single, IH by done.
    by rewrite log_calls_app, bind_cons.
Qed.

Lemma dispatch_message (s : nat) (h : Handler) (d : MessageData) (w : World) :
  readyState s w = Some OPEN -> listeners (this w) = [h] ->
  dispatch (socket_message s d) w = (log_calls (forwarded_to h d) w, Return tt).
Proof.
  intros Ho Hl. unfold dispatch. unfold_M. cbn.
  rewrite decide_True by done.
  by rewrite onmessage_spec, Hl, forwarded_calls_single.
Qed.

Lemma calls_of_names (w : World) (ev : Event) :
  Forall (fun c => c.1 ∈ hname <$> listeners (this w)) (calls_of w ev).
Proof.
  destruct ev; cbn; try by constructor.
  case_decide; [|by constructor].
  unfold forwarded_calls. destruct (forwardable d) as [v|]; [|by constructor].
  induction (listeners (this w)) as [|fn fns IH]; cbn; [by constructor|].
  constructor; [apply elem_of_cons; by left|].
  destruct (hthrows fn v); [by constructor|].
  eapply Forall_impl; [exact IH|]. intros c Hc. apply elem_of_cons. by right.
Qed.

Lemma run_calls_single (h : Handler) (evs : list Event) (w : World) :
  listeners (this w) = [h] -> Forall (fun ev => is_connect ev = false) evs ->
  listeners (this (run evs w)) = [h] /\
  exists l, calls (env (run evs w)) = calls (env w) ++ l /\
            Forall (fun c => c.1 = hname h) l.
Proof.
  revert w. induction evs as [|ev evs IH]; intros w Hl Hevs.
  - split; [done|]. exists []. by rewrite app_nil_r.
  - apply Forall_cons in Hevs as [Hev Hevs]. rewrite run_cons.
    assert (listeners (this (step w ev)) = [h]) as Hl'.
    { rewrite step_listeners. by destruct ev. }
    destruct (IH _ Hl' Hevs) as (IH1 & l & IH2 & IH3). split; [done|].
    exists (calls_of w ev ++ l). rewrite IH2, step_calls, app_assoc.
    split; [done|]. apply Forall_app. split; [|done].
    eapply Forall_impl; [apply calls_of_names|]. rewrite Hl.
    intros c Hc. by apply list_elem_of_singleton in Hc.
Qed.

Lemma listeners_at_most_one (w : World) :
  reachable w -> length (listeners (this w)) <= 1.
Proof.
  revert w. apply reachable_invariant; [cbn; lia|].
  intros w ev Hw. rewrite step_listeners. destruct ev; cbn; lia.
Qed.

(** *** Backoff *)

Lemma ladder_grows (d : Q) :
  d ∈ delay_ladder -> Math_min (d * 1.5) 30000 ∈ delay_ladder.
Proof.
  unfold delay_ladder. rewrite !elem_of_cons.
  intros H. repeat (destruct H as [->|H]); try by inversion H.
  all: repeat (first [left; by vm_compute | right]).
Qed.

Lemma ladder_bounds (d : Q) : d ∈ delay_ladder -> (2000 <= d <= 30000)%Q.
Proof.
  unfold delay_ladder. rewrite !elem_of_cons.
  intros H. repeat (destruct H as [->|H]); try by inversion H.
  all: split; by vm_compute.
Qed.

(** How one task changes the delay: not at all, or an open resets it, or a
    close with the intent set grows it. *)
Lemma step_reconnectDelay (w : World) (ev : Event) :
  let d := reconnectDelay (this w) in
  let d' := reconnectDelay (this (step w ev)) in
  d' = d \/
  (exists s, ev = socket_open s /\ d' = 2000%Q) \/
  (exists s, ev = socket_close s /\ d' = Math_min (d * 1.5) (maxDelay (this w))).
Proof.
  destruct ev; try rewrite step_message; cbn zeta;
    try (left; crush_step; fail).
  - crush_step; [right; left; eauto | by left].
  - crush_step; (by left) || (right; right; eauto).
Qed.

Lemma delay_ok_step (w : World) (ev : Event) : delay_ok w -> delay_ok (step w ev).
Proof.
  intros [Hd Hm]. split; [|by rewrite step_maxDelay].
  destruct (step_reconnectDelay w ev) as [->|[(s & _ & ->)|(s & _ & ->)]];
    [done| |].
  - unfold delay_ladder. apply elem_of_cons. by left.
  - rewrite Hm. by apply ladder_grows.
Qed.

Lemma delay_ok_reachable (w : World) : reachable w -> delay_ok w.
Proof.
  revert w. apply reachable_invariant; [|apply delay_ok_step].
  split; [|done]. unfold delay_ladder. apply elem_of_cons. by left.
Qed.

Lemma ladder_step (d : Q) :
  d ∈ delay_ladder ->
  let d' := Math_min (d * 1.5) 30000 in
  (d' == Qmin (d * 1.5) 30000)%Q /\
  (d <= d' <= 30000)%Q /\
  ((d * 1.5 <= 30000)%Q -> (d' == d * 1.5)%Q) /\
  ((d < 30000)%Q -> (d < d')%Q).
Proof.
  unfold delay_ladder. rewrite !elem_of_cons.
  intros H. repeat (destruct H as [->|H]); try by inversion H.
  all: repeat split; try by vm_compute.
  all: intros Hc; exfalso; by vm_compute in Hc.
Qed.

(** *** Keepalive *)

Lemma remove_timer_gone (id : positive) (l : list (positive * Q)) :
  id ∉ (remove_timer id l).*1.
Proof.
  unfold remove_timer. intros H. apply list_elem_of_fmap in H as ([i q] & -> & H).
  apply list_elem_of_filter in H as [H _]. by apply H.
Qed.

Lemma finished_insert (s s' : nat) (r : ReadyState) (w : World) :
  finished s w -> (s' = s -> r = CLOSING \/ r = CLOSED) ->
  finished s (set_sockets (<[s' := r]> (sockets (env w))) w).
Proof.
  unfold finished, readyState. cbn. intros Hf Hr.
  destruct (decide (s' = s)) as [->|Hne].
  - rewrite list_lookup_insert_eq.
    + destruct (Hr eq_refl) as [-> | ->]; auto.
    + destruct Hf as [Hf|Hf]; by apply lookup_lt_Some in Hf.
  - by rewrite list_lookup_insert_ne.
Qed.

Lemma finished_new (s : nat) (w : World) :
  finished s w -> finished s (set_sockets (sockets (env w) ++ [CONNECTING]) w).
Proof.
  unfold finished, readyState. cbn. intros Hf.
  rewrite lookup_app_l; [done|].
  destruct Hf as [Hf|Hf]; by apply lookup_lt_Some in Hf.
Qed.

Lemma finished_ws_close (s s' : nat) (w : World) :
  finished s w -> finished s (ws_close s' w).1.
Proof.
  intros Hf. unfold ws_close. unfold_M. cbn.
  repeat case_match; try done.
  all: apply finished_insert; auto.
Qed.

Lemma finished_connect (s : nat) (ctor : bool) (w : World) :
  finished s w -> finished s (_connect ctor w).1.
Proof.
  intros Hf. unfold _connect, new_WebSocket. unfold_M. destruct ctor; cbn; [|done].
  by apply (finished_new s w).
Qed.

Lemma finished_step (s : nat) (w : World) (ev : Event) :
  finished s w -> finished s (step w ev).
Proof.
  intros Hf. destruct ev as [h c| |s'|s' d|s'|s'|id c|id].
  - by apply (finished_connect s c
      (set_listeners [h] (set_shouldReconnect true w))).
  - crush_step;
      match goal with
      | |- finished _ (set_ws None (set_sockets _ ?w0)) =>
          apply (finished_insert s _ CLOSING w0); auto
      end.
  - crush_step. apply (finished_insert s s' OPEN w); [done|].
    intros ->. destruct Hf as [Hf|Hf]; congruence.
  - rewrite step_message. by case_decide.
  - crush_step;
      match goal with
      | |- finished _ (set_sockets _ ?w0) =>
          apply (finished_insert s _ CLOSING w0); auto
      end.
  - crush_step; apply (finished_insert s s' CLOSED w); auto.
  - unfold step, dispatch. unfold_M. cbn. case_match; [|done].
    by apply (finished_connect s c
      (set_timeouts (remove_timer id (timeouts (env w))) w)).
  - crush_step.
Qed.

Lemma frames_of_finished (s : nat) (w : World) (ev : Event) :
  finished s w -> filter (fun f => f.1 = s) (frames_of w ev) = [].
Proof.
  intros Hf. destruct ev; try done. cbn.
  repeat case_match; try done.
  rewrite filter_cons_False; [done|]. cbn. intros ->.
  destruct Hf as [Hf|Hf]; congruence.
Qed.

Lemma run_sent_finished (s : nat) (evs : list Event) (w : World) :
  finished s w ->
  filter (fun f => f.1 = s) (sent (env (run evs w)))
  = filter (fun f => f.1 = s) (sent (env w)).
Proof.
  revert w. induction evs as [|ev evs IH]; intros w Hf; [done|].
  rewrite run_cons, IH by by apply finished_step.
  by rewrite step_sent, filter_app, frames_of_finished, app_nil_r.
Qed.

(** ** The claims about the client *)

Lemma connected_reachable : reachable connected.
Proof. by eexists. Qed.

(** C5. In every state the service can reach, the reconnect delay lies
    between the floor 2000 and the ceiling 30000. A close with the
    reconnect intent set schedules the next attempt after the current
    delay and only then replaces the delay by [min(delay * 1.5, 30000)]:
    it never shrinks, it is exactly 1.5 times larger while that stays
    under the ceiling, strictly larger while the ceiling is not reached,
    and never above the ceiling. An open resets the delay to 2000, and no
    task other than an open ever lowers it. *)
Theorem backoff_delay (w : World) (ev : Event) (Hr : reachable w) :
  let d := reconnectDelay (this w) in
  let w' := step w ev in
  let d' := reconnectDelay (this w') in
  (2000 <= d <= 30000)%Q /\
  (forall s, ev = socket_close s ->
     readyState s w <> None -> readyState s w <> Some CLOSED ->
     shouldReconnect (this w) = true ->
     timeouts (env w') = timeouts (env w) ++ [(next_timer (env w), d)] /\
     (d' == Qmin (d * 1.5) 30000)%Q /\
     (d <= d' <= 30000)%Q /\
     ((d * 1.5 <= 30000)%Q -> (d' == d * 1.5)%Q) /\
     ((d < 30000)%Q -> (d < d')%Q)) /\
  (forall s, ev = socket_open s -> readyState s w = Some CONNECTING ->
     d' = 2000%Q) /\
  ((forall s, ev <> socket_open s) -> (d <= d' <= 30000)%Q).
Proof.
  cbn zeta. destruct (delay_ok_reachable w Hr) as [Hd Hm].
  pose proof (ladder_bounds _ Hd) as Hb.
  pose proof (ladder_step _ Hd) as Hs. cbn zeta in Hs.
  split; [done|]. split; [|split].
  - intros s -> Hn Hc Hi.
    assert (reconnectDelay (this (step w (socket_close s)))
            = Math_min (reconnectDelay (this w) * 1.5) 30000
            /\ timeouts (env (step w (socket_close s)))
            = timeouts (env w) ++ [(next_timer (env w), reconnectDelay (this w))])
      as [-> ->].
    { rewrite <- Hm. clear Hb Hs Hd Hm. crush_step. by destruct o. }
    done.
  - intros s -> Hc. crush_step.
  - intros Hno.
    destruct (step_reconnectDelay w ev) as [E|[(s & -> & _)|(s & _ & E)]].
    + cbn zeta in E. rewrite E. split; [apply Qle_refl|apply Hb].
    + by destruct (Hno s).
    + cbn zeta in E. rewrite E, Hm. apply Hs.
Qed.

Lemma backoff_delay_witness :
  reachable connected /\
  timeouts (env (step connected (socket_close 0))) = [(2%positive, 2000%Q)] /\
  (reconnectDelay (this (step connected (socket_close 0))) == 2000 * 1.5)%Q.
Proof.
  split; [exact connected_reachable|].
  destruct (backoff_delay connected (socket_close 0) connected_reachable)
    as (_ & H & _).
  destruct (H 0 eq_refl) as (Ht & _ & _ & Hg & _); [done..|].
  split; [exact Ht|]. apply Hg. by vm_compute.
Defined.

(** C6, as the claim has it, fails on the JSON text [null]: it parses, it
    has no [type] member equal to ["pong"], and still the handler is not
    called, because reading [.type] of [null] throws inside the [try]. *)
Lemma null_message_not_forwarded :
  exists (w : World) (s : nat) (h : Handler) (v : json),
    readyState s w = Some OPEN /\ listeners (this w) = [h] /\
    has_pong_type v = false /\
    dispatch (socket_message s (parses_to v)) w = (w, Return tt) /\
    calls (env (step w (socket_message s (parses_to v))))
      <> calls (env w) ++ [(hname h, v)].
Proof.
  exists connected, 0, quiet, JNull. repeat split. by vm_compute.
Qed.

(** C6, amended. On an open socket with handler [h] registered, the
    message callback always returns normally and touches nothing but the
    log of handler calls. A message that does not parse, the JSON value
    [null], and an object whose [type] is ["pong"] produce no call; every
    other parsed value is handed to [h], once. Over any sequence of
    messages the handler sees exactly the forwardable ones, in arrival
    order, and the socket is still open afterwards. *)
Theorem message_forwarding (w : World) (s : nat) (h : Handler)
    (ds : list MessageData)
    (Hopen : readyState s w = Some OPEN) (Hl : listeners (this w) = [h]) :
  (forall d, dispatch (socket_message s d) w
             = (log_calls (forwarded_to h d) w, Return tt)) /\
  forwarded_to h unparseable = [] /\
  forwarded_to h (parses_to JNull) = [] /\
  (forall v, has_pong_type v = true -> forwarded_to h (parses_to v) = []) /\
  (forall v, v <> JNull -> has_pong_type v = false ->
             forwarded_to h (parses_to v) = [(hname h, v)]) /\
  let w' := run (socket_message s <$> ds) w in
  calls (env w') = calls (env w) ++ (ds ≫= forwarded_to h) /\
  this w' = this w /\ readyState s w' = Some OPEN /\
  sent (env w') = sent (env w).
Proof.
  split; [|split; [done|split; [done|split; [|split]]]].
  - intros d. by apply dispatch_message.
  - intros v Hv. unfold forwarded_to. cbn. destruct v; try done.
    cbn in Hv. cbn. by rewrite Hv.
  - intros v Hn Hv. unfold forwarded_to. cbn. destruct v; try done.
    cbn in Hv. cbn. by rewrite Hv.
  - cbn zeta. by rewrite (run_messages s h).
Qed.

Lemma message_forwarding_witness :
  calls (env (run (socket_message 0 <$>
                     [parses_to (JObj [("type", JStr "pong")]);
                      unparseable;
                      parses_to (JObj [("type", JStr "admin_login")]);
                      parses_to JNull;
                      parses_to (JNum 5)]) connected))
  = [(7, JObj [("type", JStr "admin_login")]); (7, JNum 5)].
Proof.
  pose proof (message_forwarding connected 0 quiet
    [parses_to (JObj [("type", JStr "pong")]); unparseable;
     parses_to (JObj [("type", JStr "admin_login")]);
     parses_to JNull; parses_to (JNum 5)] eq_refl eq_refl) as H.
  cbn zeta in H. destruct H as (_ & _ & _ & _ & _ & H & _).
  exact H.
Defined.

(** C9. When the registered handler throws on a forwarded message, the
    exception stops at the [catch] of the message callback: the callback
    returns normally, the only trace is the recorded call, every field of
    the service and every socket is as before, and the messages that come
    later are forwarded as if nothing had happened. *)
Theorem throwing_handler_contained (w : World) (s : nat) (h : Handler)
    (v : json) (ds : list MessageData)
    (Hopen : readyState s w = Some OPEN) (Hl : listeners (this w) = [h])
    (Hv : forwardable (parses_to v) = Some v) (Hthrow : hthrows h v = true) :
  let w1 := log_calls [(hname h, v)] w in
  call h v w = (w1, Throw (HandlerError (hname h))) /\
  dispatch (socket_message s (parses_to v)) w = (w1, Return tt) /\
  this w1 = this w /\
  sockets (env w1) = sockets (env w) /\
  timeouts (env w1) = timeouts (env w) /\
  intervals (env w1) = intervals (env w) /\
  sent (env w1) = sent (env w) /\
  run (socket_message s <$> ds) w1 = log_calls (ds ≫= forwarded_to h) w1.
Proof.
  cbn zeta. split; [|split].
  - unfold call. unfold_M. cbn. by rewrite Hthrow.
  - rewrite (dispatch_message s h) by done.
    unfold forwarded_to. by rewrite Hv.
  - repeat split. by rewrite (run_messages s h).
Qed.

Lemma throwing_handler_contained_witness :
  let grumpy := {| hname := 9; hthrows := fun _ => true |} in
  let w := step connected (call_connect grumpy true) in
  dispatch (socket_message 0 (parses_to (JStr "a"))) w
  = (log_calls [(9, JStr "a")] w, Return tt).
Proof.
  cbv zeta.
  exact (proj1 (proj2 (throwing_handler_contained
    (step connected (call_connect {| hname := 9; hthrows := fun _ => true |} true))
    0 {| hname := 9; hthrows := fun _ => true |} (JStr "a") []
    eq_refl eq_refl eq_refl eq_refl))).
Defined.

(** X11. An open of a connecting socket starts one interval timer of
    25000 ms, whatever the backoff delay is, and stores its id. Each time
    a running interval fires, the literal ["ping"] is sent on the current
    socket if that socket is open, and nothing is sent otherwise; no other
    task sends anything. A close and a [disconnect()] clear the timer
    whose id is stored, if one is, and null the field, and leave the
    socket closed (for [disconnect()]: closing or closed). From a socket
    that is closing or closed on, no frame is ever sent on it again. *)
Theorem keepalive_timer (w : World) (s : nat) :
  (readyState s w = Some CONNECTING ->
     let w' := step w (socket_open s) in
     readyState s w' = Some OPEN /\
     _pingInterval (this w') = Some (next_timer (env w)) /\
     intervals (env w')
       = intervals (env w) ++ [(next_timer (env w), 25000%Q)] /\
     sent (env w') = sent (env w)) /\
  (forall id, id ∈ (intervals (env w)).*1 ->
     let w' := step w (interval_fires id) in
     (ws (this w) = Some s -> readyState s w = Some OPEN ->
        sent (env w') = sent (env w) ++ [(s, "ping")]) /\
     (ws (this w) = Some s -> readyState s w <> Some OPEN ->
        sent (env w') = sent (env w)) /\
     (ws (this w) = None -> sent (env w') = sent (env w))) /\
  (forall ev, (forall id, ev <> interval_fires id) ->
     sent (env (step w ev)) = sent (env w)) /\
  (readyState s w <> None -> readyState s w <> Some CLOSED ->
     let w' := step w (socket_close s) in
     readyState s w' = Some CLOSED /\
     _pingInterval (this w') = None /\
     (forall id, _pingInterval (this w) = Some id ->
                 id ∉ (intervals (env w')).*1)) /\
  (let w' := step w call_disconnect in
     _pingInterval (this w') = None /\
     (forall id, _pingInterval (this w) = Some id ->
                 id ∉ (intervals (env w')).*1) /\
     (ws (this w) = Some s -> readyState s w <> None -> finished s w')) /\
  (finished s w ->
     forall evs, filter (fun f => f.1 = s) (sent (env (run evs w)))
                 = filter (fun f => f.1 = s) (sent (env w))).
Proof.
  split; [|split; [|split; [|split; [|split]]]].
  - intros Hc. cbn zeta. crush_step. repeat split.
    unfold readyState. cbn. apply list_lookup_insert_eq.
    by eapply lookup_lt_Some.
  - intros id Hid. cbn zeta. rewrite step_sent. cbn.
    unfold has_timer. rewrite bool_decide_eq_true_2 by done.
    repeat split.
    + intros -> Ho. by rewrite decide_True.
    + intros -> Ho. by rewrite decide_False, app_nil_r.
    + intros ->. by rewrite app_nil_r.
  - intros ev Hev. rewrite step_sent. destruct ev; cbn; try apply app_nil_r.
    by destruct (Hev id).
  - intros Hn Hc. cbn zeta. crush_step;
      try match goal with o : _ \/ _ |- _ => by destruct o end.
    all: repeat split; try done.
    all: try (intros id' ?; simplify_eq; apply remove_timer_gone).
    all: unfold readyState; cbn; apply list_lookup_insert_eq;
      destruct (sockets (env w) !! s) eqn:E; [by eapply lookup_lt_Some|done].
  - cbn zeta. crush_step; repeat split; try done.
    all: try (intros id' ?; simplify_eq; apply remove_timer_gone).
    all: intros ? Hn; simplify_eq; unfold finished, readyState in *; cbn.
    all: try (rewrite list_lookup_insert_eq by (by eapply lookup_lt_Some); auto).
    all: repeat match goal with H : _ !! _ = _ |- _ => rewrite H in * end; auto.
    all: done.
  - intros Hf evs. by apply run_sent_finished.
Qed.

Lemma keepalive_timer_witness :
  sent (env (run [interval_fires 1; interval_fires 1] connected))
    = [(0, "ping"); (0, "ping")] /\
  sent (env (run [interval_fires 1; socket_open 0; interval_fires 1]
               (step connected (socket_close 0)))) = [].
Proof.
  split; [reflexivity|].
  destruct (keepalive_timer (step connected (socket_close 0)) 0)
    as (_ & _ & _ & _ & _ & H).
  assert (finished 0 (step connected (socket_close 0))) as Hf by by right.
  exact (H Hf [interval_fires 1; socket_open 0; interval_fires 1]).
Defined.

(** C8. [connect(handler)] returns normally and leaves the listener list
    equal to [[handler]], whatever was registered before. In every
    reachable state the list holds at most one handler. Until the next
    [connect], whatever happens, the list stays [[handler]] and every
    handler call made is a call of that handler. *)
Theorem connect_replaces_handler (w : World) (onEvent : Handler)
    (ctor : bool) (evs : list Event)
    (Hevs : Forall (fun ev => is_connect ev = false) evs) :
  let w1 := step w (call_connect onEvent ctor) in
  (connect onEvent ctor w).2 = Return tt /\
  listeners (this w1) = [onEvent] /\
  (reachable w -> length (listeners (this w)) <= 1) /\
  listeners (this (run evs w1)) = [onEvent] /\
  exists l, calls (env (run evs w1)) = calls (env w1) ++ l /\
            Forall (fun c => c.1 = hname onEvent) l.
Proof.
  cbn zeta.
  assert (listeners (this (step w (call_connect onEvent ctor))) = [onEvent])
    as Hl by by rewrite step_listeners.
  split; [|split; [done|split; [apply listeners_at_most_one|]]].
  - destruct ctor; reflexivity.
  - by apply run_calls_single.
Qed.

Lemma connect_replaces_handler_witness :
  let other := {| hname := 8; hthrows := fun _ => false |} in
  let w1 := step connected (call_connect other true) in
  listeners (this
    (run [socket_message 0 (parses_to (JNum 1)); socket_close 0] w1))
  = [other].
Proof.
  cbv zeta.
  refine (proj1 (proj2 (proj2 (proj2 (connect_replaces_handler connected
    {| hname := 8; hthrows := fun _ => false |} true
    [socket_message 0 (parses_to (JNum 1)); socket_close 0] _))))).
  repeat constructor.
Defined.


(** C4 does not hold of the code. The trace: [connect], the socket opens,
    the socket closes (which schedules timer 2 for an attempt after 2000
    ms), then [disconnect()] during that wait. The service is stopped, yet
    timer 2 is still pending; when it fires, [_connect] builds socket 1
    and stores it, and once that socket opens a new keepalive interval
    runs and pings are sent. *)
Theorem disconnect_during_backoff_reconnects (h : Handler) :
  let w := run [call_connect h true; socket_open 0; socket_close 0;
                call_disconnect] constructor in
  stopped w /\
  sockets (env w) = [CLOSED] /\
  timeouts (env w) = [(2%positive, 2000%Q)] /\
  let w' := step w (timeout_fires 2 true) in
  sockets (env w') = [CLOSED; CONNECTING] /\
  ws (this w') = Some 1 /\
  shouldReconnect (this w') = false /\
  let w'' := run [socket_open 1; interval_fires 3] w' in
  sockets (env w'') = [CLOSED; OPEN] /\
  _pingInterval (this w'') = Some 3%positive /\
  sent (env w'') = [(1, "ping")].
Proof. cbv zeta. repeat split. Qed.

(** C10. [disconnect()] on a service that is already stopped (no reconnect
    intent, no socket, no ping timer) returns normally and leaves every
    field and the browser as they were; and from any state at all, a
    second [disconnect()] right after the first returns normally and
    changes nothing. *)
Theorem disconnect_idempotent (w : World) :
  (stopped w -> disconnect w = (w, Return tt)) /\
  (exists w1, disconnect w = (w1, Return tt) /\ stopped w1 /\
              disconnect w1 = (w1, Return tt)).
Proof.
  split; [apply disconnect_stopped|].
  destruct (disconnect_returns w) as (w1 & E & S).
  exists w1. auto using disconnect_stopped.
Qed.

Lemma disconnect_idempotent_witness :
  disconnect (step connected call_disconnect)
  = (step connected call_disconnect, Return tt).
Proof.
  apply (proj1 (disconnect_idempotent (step connected call_disconnect))).
  repeat split.
Defined.

(** ** Beyond the claims *)

(** The rest of the class as it behaves over whole runs: which callbacks can
    throw, what a refused constructor leaves behind, how many sockets and
    retries there can be, the exact backoff schedule, what is ever sent,
    and which timers and sockets the service loses track of. *)

(** A method call by the page, as opposed to a callback run by the
    browser. *)
Definition is_call (ev : Event) : bool :=
  match ev with
  | call_connect _ _ | call_disconnect => true
  | _ => false
  end.

(** Sockets the page has made that are not closed yet. *)
Definition alive (w : World) : nat :=
  length (filter (fun r => r <> CLOSED) (sockets (env w))).

(** Nothing is in flight: every socket is closed and no timer is set. *)
Definition idle (w : World) : Prop :=
  Forall (fun r => r = CLOSED) (sockets (env w)) /\
  timeouts (env w) = [] /\ intervals (env w) = [].

(** The socket has left the connecting state. *)
Definition opened (s : nat) (w : World) : Prop :=
  exists r, readyState s w = Some r /\ r <> CONNECTING.

(** The service wants to stay connected and holds a socket that is not
    closed yet. *)
Definition retrying (w : World) : Prop :=
  shouldReconnect (this w) = true /\ maxDelay (this w) = 30000%Q /\
  exists s r, ws (this w) = Some s /\ readyState s w = Some r /\ r <> CLOSED.

(** One failed attempt: the current socket closes, and the retry that the
    close schedules fires and builds the next socket. *)
Definition failed_attempt (w : World) : World :=
  match ws (this w) with
  | Some s => run [socket_close s; timeout_fires (next_timer (env w)) true] w
  | None => w
  end.

(** The delay in force after [k] failed attempts in a row. *)
Definition delay_after (k : nat) : Q := default 30000%Q (delay_ladder !! k).

(** The [connect] calls of a run. *)
Definition connects (evs : list Event) : nat :=
  length (filter (fun ev => is_connect ev = true) evs).

(** The ids of the running intervals and the stored id have been handed
    out, and the stored id is running. *)
Definition timers_ok (w : World) : Prop :=
  (forall id, id ∈ (intervals (env w)).*1 ->
              (id < next_timer (env w))%positive) /\
  (forall id, _pingInterval (this w) = Some id ->
              id ∈ (intervals (env w)).*1).

(** The interval runs, and the service no longer knows its id. *)
Definition orphaned (id : positive) (w : World) : Prop :=
  id ∈ (intervals (env w)).*1 /\ _pingInterval (this w) <> Some id /\
  (id < next_timer (env w))%positive.

(** Either nothing has been built or scheduled yet, or a handler is
    registered. *)
Definition has_handler (w : World) : Prop :=
  (sockets (env w) = [] /\ timeouts (env w) = []) \/
  exists h, listeners (this w) = [h].

(** The stored socket, if any, is the last one built. *)
Definition newest (w : World) : Prop :=
  forall s, ws (this w) = Some s -> S s = length (sockets (env w)).

(** *** Exceptions *)

Lemma dispatch_throws (w : World) (ev : Event) (e : exn) :
  (dispatch ev w).2 = Throw e ->
  e = TypeError /\ ws (this w) = None /\ (dispatch ev w).1 = w /\
  exists s, ev = socket_error s /\ readyState s w <> None.
Proof.
  destruct ev as [h c| |s|s d|s|s|id c|id]; intros H.
  - exfalso. revert H. destruct c; crush_step.
  - exfalso. revert H. crush_step.
  - exfalso. revert H. crush_step.
  - exfalso. revert H. unfold dispatch. unfold_M. cbn.
    case_decide; [by rewrite onmessage_spec|done].
  - revert H. crush_step. intros ?. simplify_eq. eauto 10.
  - exfalso. revert H. crush_step.
  - exfalso. revert H. destruct c; crush_step.
  - exfalso. revert H. crush_step.
Qed.

Lemma onerror_without_socket (w : World) (s : nat) :
  ws (this w) = None -> readyState s w <> None ->
  dispatch (socket_error s) w = (w, Throw TypeError).
Proof. intros Hw Hs. crush_step. Qed.

(** X1. The only exception that ever leaves the service is the
    [TypeError] of the error callback when [this.ws] is null, which is
    the case after [disconnect()]: [this.ws.close()] then reads a method
    of null. The world is left as it was. [connect], [disconnect] and all
    other callbacks return normally in every state, whatever the handler
    or the socket constructor do. *)
Theorem only_onerror_throws (w : World) (ev : Event) (e : exn) :
  ((dispatch ev w).2 = Throw e <->
   e = TypeError /\ ws (this w) = None /\
   exists s, ev = socket_error s /\ readyState s w <> None) /\
  ((dispatch ev w).2 = Throw e -> step w ev = w) /\
  (forall s, readyState s w <> None ->
     dispatch (socket_error s) (step w call_disconnect)
     = (step w call_disconnect, Throw TypeError)).
Proof.
  split; [split|split].
  - intros H. apply dispatch_throws in H as (? & ? & _ & ?). auto.
  - intros (-> & Hw & s & -> & Hs). by rewrite onerror_without_socket.
  - intros H. by apply dispatch_throws in H as (_ & _ & ? & _).
  - intros s Hs. apply onerror_without_socket.
    + destruct (disconnect_returns w) as (w' & E & _ & Hw & _).
      unfold step, dispatch. by rewrite E.
    + unfold readyState in *. intros Hn. apply Hs.
      apply lookup_ge_None in Hn. apply lookup_ge_None.
      revert Hn. crush_step; by rewrite ?length_insert.
Qed.

Lemma only_onerror_throws_witness :
  dispatch (socket_error 0) (step connected call_disconnect)
  = (step connected call_disconnect, Throw TypeError).
Proof.
  exact (proj2 (proj2 (only_onerror_throws connected (socket_error 0) TypeError))
           0 ltac:(discriminate)).
Defined.

(** *** A constructor that refuses *)

Lemma idle_lookup (w : World) (s : nat) (r : ReadyState) :
  idle w -> readyState s w = Some r -> r = CLOSED.
Proof.
  intros (Hs & _ & _) Hr. eapply (proj1 (Forall_lookup _ _) Hs); eauto.
Qed.

Lemma idle_browser_event (w : World) (ev : Event) :
  idle w -> is_call ev = false -> step w ev = w.
Proof.
  intros Hi Hev.
  assert (forall s r, readyState s w = Some r -> r = CLOSED) as Hc.
  { intros s r. by apply idle_lookup. }
  destruct Hi as (_ & Ht & Hn).
  destruct ev as [h c| |s|s d|s|s|id c|id]; try done.
  - unfold step, dispatch. unfold_M. cbn. case_decide as E; [|done].
    by specialize (Hc _ _ E).
  - rewrite step_message. case_decide as E; [|done]. by specialize (Hc _ _ E).
  - crush_step;
      match goal with
      | H : readyState _ _ = Some _ |- _ => by specialize (Hc _ _ H)
      end.
  - unfold step, dispatch. unfold_M. cbn.
    destruct (readyState s w) as [r|] eqn:E.
    + assert (r = CLOSED) as -> by by eapply Hc.
      rewrite decide_True; [done|by right].
    + rewrite decide_True; [done|by left].
  - unfold step, dispatch. unfold_M. cbn. by rewrite Ht.
  - unfold step, dispatch. unfold_M. cbn. by rewrite Hn.
Qed.

(** X2. When [new WebSocket(url)] throws, [_connect] swallows the
    exception and nothing is scheduled. Called on a service with nothing
    in flight, [connect] returns normally and sets the reconnect intent,
    but no socket and no timer exist, so no callback of the browser can
    change anything any more: the service never retries on its own. *)
Theorem refused_constructor_is_not_retried (w : World) (onEvent : Handler)
    (evs : list Event)
    (Hidle : idle w) (Hevs : Forall (fun ev => is_call ev = false) evs) :
  let w' := step w (call_connect onEvent false) in
  (connect onEvent false w).2 = Return tt /\
  shouldReconnect (this w') = true /\
  listeners (this w') = [onEvent] /\
  ws (this w') = ws (this w) /\
  env w' = env w /\
  run evs w' = w'.
Proof.
  cbn zeta. repeat split.
  assert (idle (step w (call_connect onEvent false))) as Hi by done.
  revert Hi. generalize (step w (call_connect onEvent false)). intros w' Hi.
  induction Hevs as [|ev evs Hev _ IH]; [done|].
  by rewrite run_cons, idle_browser_event.
Qed.

Lemma refused_constructor_is_not_retried_witness :
  run [socket_open 0; socket_close 0; timeout_fires 1 true; interval_fires 1]
    (step constructor (call_connect quiet false))
  = step constructor (call_connect quiet false).
Proof.
  refine (proj2 (proj2 (proj2 (proj2 (proj2
    (refused_constructor_is_not_retried constructor quiet
       [socket_open 0; socket_close 0; timeout_fires 1 true; interval_fires 1]
       _ _)))))).
  - by repeat split.
  - by repeat constructor.
Defined.

(** *** Counting sockets and retries *)

Lemma alive_insert (l : list ReadyState) (i : nat) (x r : ReadyState) :
  l !! i = Some r ->
  length (filter (fun r => r <> CLOSED) (<[i:=x]> l))
  + (if decide (r = CLOSED) then 0 else 1)
  = length (filter (fun r => r <> CLOSED) l)
    + (if decide (x = CLOSED) then 0 else 1).
Proof.
  revert i. induction l as [|a l IH]; intros [|i] Hi; simplify_eq/=.
  - rewrite !filter_cons. repeat case_decide; cbn; try done; lia.
  - specialize (IH _ Hi). rewrite !filter_cons.
    repeat case_decide; cbn in *; lia.
Qed.

Lemma remove_timer_shorter (id : positive) (ts : list (positive * Q)) :
  has_timer id ts = true -> length (remove_timer id ts) < length ts.
Proof.
  unfold has_timer, remove_timer. intros H.
  apply bool_decide_eq_true_1, list_elem_of_fmap in H as ([i q] & -> & H).
  eapply length_filter_lt; [exact H|]. cbn. tauto.
Qed.

Ltac count_insert :=
  match goal with
  | H : readyState ?s _ = Some ?r |- context [filter _ (<[?s:=?x]> ?l)] =>
      let Hf := fresh "Hf" in
      pose proof (alive_insert l s x r H) as Hf;
      cbn in Hf; repeat case_decide; try done; lia
  end.

(** Not closed sockets plus pending retries: only [connect] raises it. *)
Lemma alive_pending_step (w : World) (ev : Event) :
  alive (step w ev) + length (timeouts (env (step w ev)))
  <= alive w + length (timeouts (env w)) + (if is_connect ev then 1 else 0).
Proof.
  unfold alive.
  destruct ev as [h c| |s|s d|s|s|id c|id]; try rewrite step_message.
  - destruct c; crush_step; rewrite ?filter_app, ?length_app; cbn;
      repeat case_decide; cbn; lia.
  - crush_step; try lia; count_insert.
  - crush_step; try lia; count_insert.
  - case_decide; cbn; lia.
  - crush_step; try lia; count_insert.
  - unfold step, dispatch. unfold_M. cbn.
    destruct (readyState s w) as [r|] eqn:E;
      [|rewrite decide_True; [cbn; lia|by left]].
    destruct (decide (r = CLOSED)) as [->|Hr];
      [rewrite decide_True; [cbn; lia|by right]|].
    rewrite decide_False by (intros [|]; congruence).
    pose proof (alive_insert (sockets (env w)) s CLOSED r E) as Hf.
    rewrite decide_False, decide_True in Hf by done.
    unfold onclose, _stopPing, clearInterval, setTimeout. unfold_M. cbn.
    repeat (case_match; simplify_eq/=); rewrite ?length_app; cbn; lia.
  - unfold step, dispatch. unfold_M. cbn.
    destruct (has_timer id (timeouts (env w))) eqn:E; [|cbn; lia].
    apply remove_timer_shorter in E.
    destruct c; unfold _connect, new_WebSocket; unfold_M; cbn;
      rewrite ?filter_app, ?length_app; cbn; repeat case_decide; cbn; lia.
  - crush_step; lia.
Qed.

(** X4. At any moment, the sockets that are not closed plus the retries
    that are pending are at most as many as [connect] has been called:
    a close trades a socket for at most one retry, a retry for at most one
    socket, and nothing else creates either. After a single [connect] the
    service therefore never has two live sockets, nor a retry pending
    beside a live socket. *)
Theorem sockets_bounded_by_connects (w : World) (evs : list Event) :
  alive (run evs w) + length (timeouts (env (run evs w)))
    <= alive w + length (timeouts (env w)) + connects evs /\
  alive (run evs constructor)
    + length (timeouts (env (run evs constructor))) <= connects evs.
Proof.
  assert (forall w,
    alive (run evs w) + length (timeouts (env (run evs w)))
    <= alive w + length (timeouts (env w)) + connects evs) as H.
  { clear w. induction evs as [|ev evs IH]; intros w; [cbn; lia|].
    rewrite run_cons. specialize (IH (step w ev)).
    pose proof (alive_pending_step w ev) as Hs.
    unfold connects in *. rewrite filter_cons.
    destruct (is_connect ev); case_decide; try done; cbn; lia. }
  split; [apply H|]. specialize (H constructor). cbn in H. cbn. lia.
Qed.

(** *** After [disconnect()] *)

Lemma sockets_grow (w : World) (ev : Event) :
  length (sockets (env w)) <= length (sockets (env (step w ev))).
Proof.
  destruct ev as [h c| |s|s d|s|s|id c|id]; try rewrite step_message;
    try (destruct c); crush_step;
    rewrite ?length_insert, ?length_app; cbn; lia.
Qed.

Lemma intent_cleared_step (w : World) (ev : Event) :
  shouldReconnect (this w) = false -> is_connect ev = false ->
  shouldReconnect (this (step w ev)) = false /\
  length (sockets (env (step w ev))) + length (timeouts (env (step w ev)))
  <= length (sockets (env w)) + length (timeouts (env w)).
Proof.
  intros Hi Hev.
  destruct ev as [h c| |s|s d|s|s|id c|id]; try done;
    try rewrite step_message.
  - crush_step; rewrite ?length_insert; split; (done || lia).
  - crush_step; rewrite ?length_insert; split; (done || lia).
  - case_decide; split; (done || (cbn; lia)).
  - crush_step; rewrite ?length_insert; split; (done || lia).
  - crush_step; rewrite ?length_insert; split; (done || lia || congruence).
  - unfold step, dispatch. unfold_M. cbn.
    destruct (has_timer id (timeouts (env w))) eqn:E; [|split; (done || lia)].
    apply remove_timer_shorter in E.
    destruct c; unfold _connect, new_WebSocket; unfold_M; cbn;
      rewrite ?length_app; cbn; split; (done || lia).
  - crush_step; split; (done || lia).
Qed.

(** X3. After [disconnect()] the reconnect intent stays cleared until the
    next [connect], and the only connection attempts still to come are
    those of retries that were already pending when [disconnect()] was
    called: the number of sockets built afterwards is at most the number
    of pending timeouts. With no retry pending, no socket is ever built
    again and no retry is ever scheduled. *)
Theorem attempts_after_disconnect (w : World) (evs : list Event)
    (Hevs : Forall (fun ev => is_connect ev = false) evs) :
  let w1 := step w call_disconnect in
  let w2 := run evs w1 in
  shouldReconnect (this w2) = false /\
  length (sockets (env w)) <= length (sockets (env w2)) /\
  length (sockets (env w2))
    <= length (sockets (env w)) + length (timeouts (env w)) /\
  (timeouts (env w) = [] ->
   length (sockets (env w2)) = length (sockets (env w)) /\
   timeouts (env w2) = []).
Proof.
  cbn zeta.
  assert (shouldReconnect (this (step w call_disconnect)) = false
          /\ length (sockets (env (step w call_disconnect)))
             = length (sockets (env w))
          /\ timeouts (env (step w call_disconnect)) = timeouts (env w))
    as (Hi & Hs & Ht).
  { crush_step; by rewrite ?length_insert. }
  rewrite <- Hs, <- Ht. clear Hs Ht. revert Hi.
  generalize (step w call_disconnect). clear w. intros w Hi.
  assert (shouldReconnect (this (run evs w)) = false
          /\ length (sockets (env w)) <= length (sockets (env (run evs w)))
          /\ length (sockets (env (run evs w)))
               + length (timeouts (env (run evs w)))
             <= length (sockets (env w)) + length (timeouts (env w)))
    as (H1 & H2 & H3).
  { revert w Hi. induction Hevs as [|ev evs Hev _ IH]; intros w Hi.
    - cbn. split; [done|lia].
    - rewrite run_cons.
      destruct (intent_cleared_step w ev Hi Hev) as (Hi' & Hle).
      destruct (IH _ Hi') as (IH1 & IH2 & IH3).
      pose proof (sockets_grow w ev). split; [done|lia]. }
  split; [done|]. split; [done|]. split; [lia|].
  intros E. rewrite E in *. cbn in H3.
  split; [lia|]. apply nil_length_inv. lia.
Qed.

Lemma attempts_after_disconnect_witness :
  length (sockets (env
    (run [socket_close 0; timeout_fires 2 true; interval_fires 1]
       (step connected call_disconnect)))) = 1.
Proof.
  destruct (attempts_after_disconnect connected
              [socket_close 0; timeout_fires 2 true; interval_fires 1])
    as (_ & _ & _ & H).
  - by repeat constructor.
  - by destruct (H eq_refl).
Defined.

(** *** The backoff schedule *)

Lemma delay_after_next (k : nat) :
  Math_min (delay_after k * 1.5) 30000 = delay_after (S k).
Proof.
  do 8 (destruct k as [|k]; [by vm_compute|]). by vm_compute.
Qed.

Lemma close_with_intent (w : World) (s : nat) (r : ReadyState) :
  readyState s w = Some r -> r <> CLOSED ->
  shouldReconnect (this w) = true ->
  let w' := step w (socket_close s) in
  shouldReconnect (this w') = true /\
  maxDelay (this w') = maxDelay (this w) /\
  ws (this w') = ws (this w) /\
  reconnectDelay (this w')
    = Math_min (reconnectDelay (this w) * 1.5) (maxDelay (this w)) /\
  timeouts (env w')
    = timeouts (env w) ++ [(next_timer (env w), reconnectDelay (this w))].
Proof.
  intros Hr Hne Hi. cbn zeta. unfold step, dispatch. unfold_M. cbn.
  rewrite decide_False by (intros [|]; congruence).
  unfold onclose, _stopPing, clearInterval, setTimeout. unfold_M. cbn.
  repeat (case_match; simplify_eq/=); try done; congruence.
Qed.

Lemma retry_fires (w : World) (id : positive) :
  has_timer id (timeouts (env w)) = true ->
  let w' := step w (timeout_fires id true) in
  this w' = this (set_ws (Some (length (sockets (env w)))) w) /\
  sockets (env w') = sockets (env w) ++ [CONNECTING].
Proof.
  intros H. cbn zeta. unfold step, dispatch. unfold_M. cbn. rewrite H.
  done.
Qed.

Lemma failed_attempt_spec (w : World) :
  retrying w ->
  retrying (failed_attempt w) /\
  reconnectDelay (this (failed_attempt w))
    = Math_min (reconnectDelay (this w) * 1.5) 30000.
Proof.
  intros (Hi & Hm & s & r & Hws & Hr & Hne).
  unfold failed_attempt. rewrite Hws, run_cons. cbn [run foldl].
  destruct (close_with_intent w s r Hr Hne Hi) as (Hi1 & Hm1 & Hw1 & Hd1 & Ht1).
  cbn zeta in *.
  assert (has_timer (next_timer (env w))
            (timeouts (env (step w (socket_close s)))) = true) as Hh.
  { unfold has_timer. apply bool_decide_eq_true_2.
    rewrite Ht1, fmap_app. apply elem_of_app. right. by left. }
  destruct (retry_fires _ _ Hh) as (Ethis & Esock). cbn zeta in *.
  split; [|by rewrite Ethis; cbn; rewrite Hd1, Hm].
  split; [by rewrite Ethis|]. split; [by rewrite Ethis; cbn; rewrite Hm1|].
  exists (length (sockets (env (step w (socket_close s))))), CONNECTING.
  split; [by rewrite Ethis|]. split; [|done].
  unfold readyState. rewrite Esock. by apply list_lookup_middle.
Qed.

(** X5. Starting from a delay of 2000 (as an open leaves it), [k] failed
    attempts in a row, each one the close of the current socket followed
    by the retry it scheduled, leave the delay at the [k]-th value of 2000,
    3000, 4500, 6750, 10125, 15187.5, 22781.25, 30000, and at 30000 from
    the seventh failure on; the next close schedules its retry after
    exactly that delay. The service is still retrying after each. *)
Theorem backoff_schedule (w : World) (k : nat)
    (Hre : retrying w) (Hd : reconnectDelay (this w) = 2000%Q) :
  let wk := Nat.iter k failed_attempt w in
  retrying wk /\
  reconnectDelay (this wk) = delay_after k /\
  (7 <= k -> reconnectDelay (this wk) = 30000%Q) /\
  (forall s, ws (this wk) = Some s ->
     timeouts (env (step wk (socket_close s)))
     = timeouts (env wk) ++ [(next_timer (env wk), delay_after k)]).
Proof.
  cbn zeta.
  assert (retrying (Nat.iter k failed_attempt w)
          /\ reconnectDelay (this (Nat.iter k failed_attempt w))
             = delay_after k) as (Hk & Hdk).
  { induction k as [|k (IH1 & IH2)]; [done|]. rewrite Nat.iter_succ.
    destruct (failed_attempt_spec _ IH1) as (H1 & H2).
    split; [done|]. by rewrite H2, IH2, delay_after_next. }
  split; [done|]. split; [done|]. split.
  - intros Hle. rewrite Hdk. unfold delay_after, delay_ladder.
    do 7 (destruct k as [|k]; [lia|]). by destruct k.
  - intros s Hs. destruct Hk as (Hi & Hm & s' & r & Hws & Hr & Hne).
    rewrite Hws in Hs. injection Hs as <-. rewrite <- Hdk.
    by destruct (close_with_intent _ s' r Hr Hne Hi) as (_ & _ & _ & _ & ->).
Qed.

Lemma backoff_schedule_witness :
  reconnectDelay (this (Nat.iter 5 failed_attempt connected)) = (30375 # 2)%Q.
Proof.
  refine (proj1 (proj2 (backoff_schedule connected 5 _ eq_refl))).
  split; [done|]. split; [done|]. by exists 0, OPEN.
Defined.

(** *** What is sent *)

Lemma opened_insert (s s' : nat) (r : ReadyState) (w : World) :
  opened s w -> r <> CONNECTING ->
  opened s (set_sockets (<[s' := r]> (sockets (env w))) w).
Proof.
  unfold opened, readyState. cbn. intros (r0 & Hr0 & Hne) Hr.
  destruct (decide (s' = s)) as [->|Hs].
  - exists r. split; [|done]. apply list_lookup_insert_eq.
    by apply lookup_lt_Some in Hr0.
  - exists r0. by rewrite list_lookup_insert_ne.
Qed.

Lemma opened_connect (s : nat) (ctor : bool) (w : World) :
  opened s w -> opened s (_connect ctor w).1.
Proof.
  intros (r & Hr & Hne). unfold _connect, new_WebSocket. unfold_M.
  destruct ctor; cbn; [|by exists r]. exists r. split; [|done].
  unfold readyState in *. cbn. rewrite lookup_app_l; [done|].
  by apply lookup_lt_Some in Hr.
Qed.

Lemma opened_step (s : nat) (w : World) (ev : Event) :
  opened s w -> opened s (step w ev).
Proof.
  intros Ho. destruct ev as [h c| |s'|s' d|s'|s'|id c|id].
  - by apply (opened_connect s c
      (set_listeners [h] (set_shouldReconnect true w))).
  - crush_step;
      match goal with
      | |- opened _ (set_ws None (set_sockets _ ?w0)) =>
          by apply (opened_insert s _ CLOSING w0)
      end.
  - crush_step. by apply (opened_insert s s' OPEN w).
  - rewrite step_message. by case_decide.
  - crush_step;
      match goal with
      | |- opened _ (set_sockets _ ?w0) =>
          by apply (opened_insert s _ CLOSING w0)
      end.
  - crush_step; by apply (opened_insert s s' CLOSED w).
  - unfold step, dispatch. unfold_M. cbn. case_match; [|done].
    by apply (opened_connect s c
      (set_timeouts (remove_timer id (timeouts (env w))) w)).
  - crush_step.
Qed.

(** X6. Whatever has happened, every frame the service has sent is the
    literal ["ping"], and it went to a socket that had left the connecting
    state: the guard on [readyState] keeps [send] away from a socket that
    is still connecting. *)
Theorem only_pings_on_opened_sockets (w : World) (Hr : reachable w) :
  Forall (fun f => f.2 = "ping" /\ opened f.1 w) (sent (env w)).
Proof.
  revert w Hr. apply reachable_invariant; [by constructor|].
  intros w ev IH. rewrite step_sent. apply Forall_app. split.
  - eapply Forall_impl; [exact IH|]. intros f [Hf Ho].
    split; [done|by apply opened_step].
  - destruct ev; cbn; try by constructor.
    repeat case_match; try by constructor.
    constructor; [|by constructor]. split; [done|].
    apply opened_step. by exists OPEN.
Qed.

Lemma only_pings_on_opened_sockets_witness :
  Forall (fun f => f.2 = "ping" /\
                   opened f.1 (run [interval_fires 1; socket_close 0] connected))
    (sent (env (run [interval_fires 1; socket_close 0] connected))).
Proof.
  apply only_pings_on_opened_sockets.
  exists [call_connect quiet true; socket_open 0; interval_fires 1;
          socket_close 0].
  vm_compute. reflexivity.
Defined.

(** *** Timers the service loses *)

Lemma elem_of_remove_timer (id id' : positive) (l : list (positive * Q)) :
  id ∈ (remove_timer id' l).*1 <-> id <> id' /\ id ∈ l.*1.
Proof.
  unfold remove_timer. rewrite !list_elem_of_fmap. split.
  - intros ([i q] & -> & H). apply list_elem_of_filter in H as [H1 H2].
    split; [done|]. by exists (i, q).
  - intros (Hne & [i q] & -> & H). exists (i, q). split; [done|].
    by apply list_elem_of_filter.
Qed.

(** What one task does to the interval timers: nothing, or [_stopPing]
    (with or without a [setTimeout] after it), or [_startPing]. *)
Lemma step_timers (w : World) (ev : Event) :
  let w' := step w ev in
  (intervals (env w') = intervals (env w) /\
   _pingInterval (this w') = _pingInterval (this w) /\
   next_timer (env w') = next_timer (env w)) \/
  (_pingInterval (this w') = None /\
   intervals (env w')
     = match _pingInterval (this w) with
       | Some p => remove_timer p (intervals (env w))
       | None => intervals (env w)
       end /\
   (next_timer (env w') = next_timer (env w) \/
    next_timer (env w') = Pos.succ (next_timer (env w)))) \/
  (intervals (env w') = intervals (env w) ++ [(next_timer (env w), 25000%Q)] /\
   _pingInterval (this w') = Some (next_timer (env w)) /\
   next_timer (env w') = Pos.succ (next_timer (env w))).
Proof.
  cbn zeta.
  destruct ev as [h c| |s|s d|s|s|id c|id]; try rewrite step_message;
    try destruct c; try case_decide; crush_step;
    first [ left; by auto
          | right; left; repeat split; by auto
          | right; right; by auto ].
Qed.

Lemma timers_ok_step (w : World) (ev : Event) :
  timers_ok w -> timers_ok (step w ev).
Proof.
  intros [H1 H2].
  destruct (step_timers w ev) as [(Ei & Ep & En)|[(Ep & Ei & En)|(Ei & Ep & En)]];
    cbn zeta in *; split.
  - intros id. rewrite Ei, En. apply H1.
  - intros id. rewrite Ei, Ep. apply H2.
  - intros id Hid. rewrite Ei in Hid.
    assert (id ∈ (intervals (env w)).*1) as Hin.
    { destruct (_pingInterval (this w)); [|done].
      by apply elem_of_remove_timer in Hid as [_ ?]. }
    apply H1 in Hin. destruct En as [-> | ->]; lia.
  - intros id. by rewrite Ep.
  - intros id Hid. rewrite Ei, fmap_app in Hid. rewrite En.
    apply elem_of_app in Hid as [Hid|Hid].
    + apply H1 in Hid. lia.
    + apply list_elem_of_singleton in Hid. cbn in Hid. subst. lia.
  - intros id Hid. rewrite Ep in Hid. simplify_eq.
    rewrite Ei, fmap_app. apply elem_of_app. right. by left.
Qed.

Lemma timers_ok_reachable (w : World) : reachable w -> timers_ok w.
Proof.
  revert w. apply reachable_invariant; [|apply timers_ok_step].
  split; cbn; [|done]. intros id Hid. by apply elem_of_nil in Hid.
Qed.

Lemma orphaned_step (id : positive) (w : World) (ev : Event) :
  orphaned id w -> orphaned id (step w ev).
Proof.
  intros (Hin & Hne & Hlt).
  destruct (step_timers w ev) as [(Ei & Ep & En)|[(Ep & Ei & En)|(Ei & Ep & En)]];
    cbn zeta in *.
  - split; [by rewrite Ei|]. split; [by rewrite Ep|by rewrite En].
  - split; [|split; [by rewrite Ep|destruct En as [-> | ->]; lia]].
    rewrite Ei. destruct (_pingInterval (this w)) as [p|]; [|done].
    apply elem_of_remove_timer. split; [congruence|done].
  - split; [|split].
    + rewrite Ei, fmap_app. apply elem_of_app. by left.
    + rewrite Ep. intros [=]. lia.
    + rewrite En. lia.
Qed.

(** X7. [_startPing] overwrites the stored timer id without clearing the
    timer it names. If a socket opens while a keepalive timer is already
    stored (two sockets were connecting at once), the earlier timer keeps
    running and the service has lost its id for good: whatever happens
    afterwards, [disconnect()] and closes included, that timer is never
    cleared and is never the stored one again. *)
Theorem second_open_orphans_timer (w : World) (id : positive) (s : nat)
    (evs : list Event)
    (Hr : reachable w) (Hid : _pingInterval (this w) = Some id)
    (Hs : readyState s w = Some CONNECTING) :
  let w' := step w (socket_open s) in
  _pingInterval (this w') = Some (next_timer (env w)) /\
  next_timer (env w) <> id /\
  id ∈ (intervals (env (run evs w'))).*1 /\
  _pingInterval (this (run evs w')) <> Some id.
Proof.
  cbn zeta. destruct (timers_ok_reachable w Hr) as [H1 H2].
  pose proof (H2 _ Hid) as Hin. pose proof (H1 _ Hin) as Hlt.
  assert (_pingInterval (this (step w (socket_open s)))
            = Some (next_timer (env w))
          /\ intervals (env (step w (socket_open s)))
             = intervals (env w) ++ [(next_timer (env w), 25000%Q)]
          /\ next_timer (env (step w (socket_open s)))
             = Pos.succ (next_timer (env w))) as (Ep & Ei & En).
  { clear H1 H2 Hin Hlt Hid. crush_step. }
  split; [done|]. split; [lia|].
  assert (orphaned id (step w (socket_open s))) as Ho.
  { split; [|split].
    - rewrite Ei, fmap_app. apply elem_of_app. by left.
    - rewrite Ep. intros [=]. lia.
    - rewrite En. lia. }
  assert (orphaned id (run evs (step w (socket_open s)))) as (Ha & Hb & _).
  { by apply (run_invariant (orphaned id)); [apply orphaned_step|]. }
  done.
Qed.

Lemma second_open_orphans_timer_witness :
  let w := run [call_connect quiet true; call_connect quiet true;
                socket_open 0] constructor in
  1%positive ∈ (intervals (env
    (run [call_disconnect; socket_close 0; socket_close 1]
       (step w (socket_open 1))))).*1.
Proof.
  cbv zeta.
  refine (proj1 (proj2 (proj2 (second_open_orphans_timer
    (run [call_connect quiet true; call_connect quiet true; socket_open 0]
       constructor)
    1%positive 1 [call_disconnect; socket_close 0; socket_close 1]
    _ eq_refl eq_refl)))).
  by eexists.
Defined.

(** *** The handler and the current socket *)

Lemma has_handler_step (w : World) (ev : Event) :
  has_handler w -> has_handler (step w ev).
Proof.
  intros [[Hs Ht]|[h Hl]].
  - assert (forall s, readyState s w = None) as Hn.
    { intros s. unfold readyState. by rewrite Hs. }
    destruct ev as [h c| |s|s d|s|s|id c|id].
    + right. exists h. by rewrite step_listeners.
    + left. crush_step;
        match goal with
        | H : readyState ?s _ = Some _ |- _ =>
            pose proof (Hn s) as Hn'; unfold readyState in *; cbn in H;
            congruence
        end.
    + left. unfold step, dispatch. unfold_M. cbn.
      by rewrite decide_False by by rewrite Hn.
    + left. rewrite step_message. by rewrite decide_False by by rewrite Hn.
    + left. unfold step, dispatch. unfold_M. cbn.
      by rewrite decide_True by apply Hn.
    + left. unfold step, dispatch. unfold_M. cbn.
      rewrite decide_True; [done|]. left. apply Hn.
    + left. unfold step, dispatch. unfold_M. cbn. by rewrite Ht.
    + left. crush_step.
  - right. rewrite step_listeners. destruct ev; eauto.
Qed.

Lemma has_handler_reachable (w : World) : reachable w -> has_handler w.
Proof.
  revert w. apply reachable_invariant; [by left|apply has_handler_step].
Qed.

(** X8. In every state the service can reach, an open socket implies a
    registered handler, exactly one. So a message never arrives with
    nobody to take it: on whichever open socket it comes in, the current
    one or an older one, the callback returns normally and a forwardable
    message is handed to that handler once. *)
Theorem every_message_has_a_handler (w : World) (s : nat)
    (Hr : reachable w) (Ho : readyState s w = Some OPEN) :
  exists h, listeners (this w) = [h] /\
    forall d, dispatch (socket_message s d) w
              = (log_calls (forwarded_to h d) w, Return tt).
Proof.
  destruct (has_handler_reachable w Hr) as [[Hs _]|[h Hl]].
  - unfold readyState in Ho. by rewrite Hs in Ho.
  - exists h. split; [done|]. intros d. by apply dispatch_message.
Qed.

Lemma every_message_has_a_handler_witness :
  exists h, listeners (this connected) = [h] /\
    forall d, dispatch (socket_message 0 d) connected
              = (log_calls (forwarded_to h d) connected, Return tt).
Proof.
  exact (every_message_has_a_handler connected 0 connected_reachable eq_refl).
Defined.

Lemma newest_step (w : World) (ev : Event) : newest w -> newest (step w ev).
Proof.
  unfold newest. intros Hn.
  destruct ev as [h c| |s|s d|s|s|id c|id]; try rewrite step_message;
    try destruct c; try case_decide; crush_step; intros s0 Hs0;
    simplify_eq/=; rewrite ?length_insert, ?length_app; cbn;
    first [ lia | by apply Hn ].
Qed.

Lemma newest_reachable (w : World) : reachable w -> newest w.
Proof. revert w. by apply reachable_invariant; [|apply newest_step]. Qed.

(** X9. The socket stored in [this.ws] is always the one built last.
    Every socket built before it is out of the service's reach: no method
    call and no callback changes its state, so only the browser opening
    or closing it does, and [disconnect()] in particular does not close
    it. *)
Theorem older_sockets_are_out_of_reach (w : World) (s : nat) (ev : Event)
    (Hr : reachable w) :
  (forall s', ws (this w) = Some s' -> S s' = length (sockets (env w))) /\
  (S s < length (sockets (env w)) ->
   ev <> socket_open s -> ev <> socket_close s ->
   readyState s (step w ev) = readyState s w).
Proof.
  pose proof (newest_reachable w Hr) as Hn. split; [exact Hn|].
  intros Hs Ho Hc. unfold readyState. unfold newest in Hn.
  destruct ev as [h c| |s'|s' d|s'|s'|id c|id]; try rewrite step_message;
    try destruct c; try case_decide; crush_step.
  all: try (rewrite lookup_app_l by lia; done).
  all: rewrite list_lookup_insert_ne; [done|]; intros ->.
  all: first [ congruence
             | assert (S s = length (sockets (env w))) by (by apply Hn); lia ].
Qed.

Lemma older_sockets_are_out_of_reach_witness :
  let w := run [call_connect quiet true; call_connect quiet true;
                socket_open 0; socket_open 1] constructor in
  readyState 0 (step w call_disconnect) = Some OPEN.
Proof.
  cbv zeta.
  refine (proj2 (older_sockets_are_out_of_reach
    (run [call_connect quiet true; call_connect quiet true;
          socket_open 0; socket_open 1] constructor)
    0 call_disconnect _) _ _ _); [by eexists|vm_compute; lia|done|done].
Defined.

(** *** A close that comes late *)

Lemma close_effect (w : World) (s : nat) (r : ReadyState) :
  readyState s w = Some r -> r <> CLOSED ->
  let w' := step w (socket_close s) in
  sockets (env w') = <[s := CLOSED]> (sockets (env w)) /\
  _pingInterval (this w') = None /\
  listeners (this w') = listeners (this w).
Proof.
  intros Hr Hne. cbn zeta. unfold step, dispatch. unfold_M. cbn.
  rewrite decide_False by (intros [|]; congruence).
  unfold onclose, _stopPing, clearInterval, setTimeout. unfold_M. cbn.
  repeat (case_match; simplify_eq/=); done.
Qed.

(** X10. [onclose] does not ask which socket closed. When the close of
    an older socket arrives while the intent is set and the current
    socket is open and healthy, the stored keepalive timer is still
    cleared and a retry is still scheduled; once the retry fires, the
    service holds a new socket, and the healthy one stays open, no
    longer referenced and no longer kept alive by the stored timer. *)
Theorem stale_close_abandons_current (w : World) (s s' : nat)
    (r : ReadyState)
    (Hi : shouldReconnect (this w) = true)
    (Hs : readyState s w = Some r) (Hr : r <> CLOSED)
    (Hws : ws (this w) = Some s') (Hne : s <> s')
    (Ho : readyState s' w = Some OPEN) :
  let w1 := step w (socket_close s) in
  let w2 := step w1 (timeout_fires (next_timer (env w)) true) in
  _pingInterval (this w1) = None /\
  timeouts (env w1)
    = timeouts (env w) ++ [(next_timer (env w), reconnectDelay (this w))] /\
  ws (this w2) = Some (length (sockets (env w))) /\
  ws (this w2) <> Some s' /\
  readyState s' w2 = Some OPEN /\
  readyState (length (sockets (env w))) w2 = Some CONNECTING /\
  _pingInterval (this w2) = None.
Proof.
  cbn zeta.
  destruct (close_with_intent w s r Hs Hr Hi) as (_ & _ & _ & _ & Ht).
  destruct (close_effect w s r Hs Hr) as (Es & Ep & _). cbn zeta in *.
  assert (has_timer (next_timer (env w))
            (timeouts (env (step w (socket_close s)))) = true) as Hh.
  { unfold has_timer. apply bool_decide_eq_true_2.
    rewrite Ht, fmap_app. apply elem_of_app. right. by left. }
  destruct (retry_fires _ _ Hh) as (Ethis & Esock). cbn zeta in *.
  assert (s' < length (sockets (env w))) as Hlt.
  { by apply lookup_lt_Some in Ho. }
  assert (length (sockets (env (step w (socket_close s))))
          = length (sockets (env w))) as El.
  { by rewrite Es, length_insert. }
  split; [done|]. split; [done|].
  rewrite Ethis. cbn. rewrite El. split; [done|].
  split; [intros [=]; lia|]. unfold readyState. rewrite Esock.
  split; [|split; [|done]].
  - rewrite lookup_app_l by lia. rewrite Es.
    by rewrite list_lookup_insert_ne.
  - by apply list_lookup_middle.
Qed.

Lemma stale_close_abandons_current_witness :
  let w := run [call_connect quiet true; call_disconnect;
                call_connect quiet true; socket_open 1] constructor in
  readyState 1 (run [socket_close 0; timeout_fires 2 true] w) = Some OPEN /\
  ws (this (run [socket_close 0; timeout_fires 2 true] w)) = Some 2.
Proof.
  cbv zeta.
  destruct (stale_close_abandons_current
    (run [call_connect quiet true; call_disconnect;
          call_connect quiet true; socket_open 1] constructor)
    0 1 CLOSING eq_refl eq_refl ltac:(discriminate) eq_refl
    ltac:(discriminate) eq_refl) as (_ & _ & H1 & _ & H2 & _).
  split; [exact H2|exact H1].
Defined.

End WebSocketService.

(* ===================================================================== *)
(** * The server side of the feed *)
(* ===================================================================== *)

(** The event log store, the broadcaster and the session manager are the
    backend's [websocket/activity_socket.py], which is not among the
    sources at hand. Every definition of this module is therefore
    modelled from the design document (sections 3, 4.1, 4.2, 4.3 and 7). *)

Module ActivityFeed.

(** ** Data model *)

(** Modelled from the spec: the closed enumeration of event kinds (the
    wire contract's [type]). *)
Inductive EventKind :=
| user_signup
| strategy_generated
| strategy_deleted
| admin_login
| payment_received.

(** Modelled from the spec: a scalar attribute value. *)
Inductive Scalar :=
| text (s : string)
| number (n : Z)
| flag (b : bool).

(** Modelled from the spec: the Event Record a producer hands over, before
    the store stamps it ([kind], [summary], [attributes]: "an open mapping
    of string keys to scalar values"). *)
Record EventRecord := {
  kind : EventKind;
  summary : string;
  attributes : gmap string Scalar;
}.

(** Modelled from the spec: what [append] returns, the record with the
    timestamp and the "monotonically increasing sequence number" the store
    assigns. Sequence numbers count from 1. *)
Record StoredRecord := {
  sequence : nat;
  timestamp : nat;
  record : EventRecord;
}.

(** Modelled from the spec: the states of a session's life cycle. A
    session is [connecting] only inside [onConnect] and leaves the live
    set when it is [closed], so the live set holds [active] sessions. *)
Inductive SessionState := connecting | active | closing | closed.

(** Modelled from the spec: a Subscriber Session. Its [id] is the key under
    which the live set holds it. *)
Record Session := {
  state : SessionState;
  lastPingAt : nat;
  lastPongAt : nat;
}.

(** Modelled from the spec: what the server writes to a session's socket,
    an event record (replay or live push) or the keepalive response. *)
Inductive Frame :=
| event_frame (r : StoredRecord)
| pong.

(** Modelled from the spec: the error taxonomy of section 7. *)
Inductive Error :=
| PersistenceError
| BroadcastError (cause : Error)
| DeliveryError (session : nat)
| AuthRejected.

(** Modelled from the spec: the server process. [log] is the Event Log
    ("the ordered sequence of all Event Records ever appended"), [live] the
    Session Manager's live set, [wire] the frames written to sockets so
    far, oldest first, and [faults] the failed deliveries, logged with the
    session handed over for a liveness re-check. *)
Record Hub := {
  log : list StoredRecord;
  live : gmap nat Session;
  next_session : nat;
  wire : list (nat * Frame);
  faults : list Error;
}.

Definition set_log (v : list StoredRecord) (h : Hub) : Hub :=
  {| log := v; live := live h; next_session := next_session h;
     wire := wire h; faults := faults h |}.

Definition set_live (v : gmap nat Session) (h : Hub) : Hub :=
  {| log := log h; live := v; next_session := next_session h;
     wire := wire h; faults := faults h |}.

Definition set_next_session (v : nat) (h : Hub) : Hub :=
  {| log := log h; live := live h; next_session := v;
     wire := wire h; faults := faults h |}.

Definition set_wire (v : list (nat * Frame)) (h : Hub) : Hub :=
  {| log := log h; live := live h; next_session := next_session h;
     wire := v; faults := faults h |}.

Definition set_faults (v : list Error) (h : Hub) : Hub :=
  {| log := log h; live := live h; next_session := next_session h;
     wire := wire h; faults := v |}.

(** The process at start: nothing logged, nobody connected. *)
Definition boot : Hub :=
  {| log := []; live := ∅; next_session := 0; wire := []; faults := [] |}.

(** ** Event Log Store (4.1) *)

Definition last_timestamp (l : list StoredRecord) : nat :=
  default 0 (timestamp <$> last l).

(** Modelled from the spec: [append(record) -> stored_record] "assigns
    timestamp and a monotonically increasing sequence number, fails with
    [PersistenceError] if the durable backend is unreachable". [up] tells
    whether the backend can be reached, [now] is the clock; the timestamp
    never runs backwards. *)
Definition append (up : bool) (now : nat) (r : EventRecord)
    (l : list StoredRecord) : Error + list StoredRecord * StoredRecord :=
  if up then
    let stored := {| sequence := S (length l);
                     timestamp := now `max` last_timestamp l;
                     record := r |} in
    inr (l ++ [stored], stored)
  else inl PersistenceError.

(** Modelled from the spec: [recent(limit)] "returns up to [limit]
    most-recent records in ascending time order, empty sequence if the log
    is empty, never raises for an empty result". *)
Definition recent (limit : nat) (l : list StoredRecord) : list StoredRecord :=
  drop (length l - limit) l.

(** ** Activity Broadcaster (4.2) *)

(** Modelled from the spec: what a call meets outside the process, that
    is whether the durable backend answers, the clock, and for each session
    whether a write to its socket goes through ("slow or dead socket"). *)
Record Outside := {
  backend_up : bool;
  now : nat;
  socket_ok : nat -> bool;
}.

(** Modelled from the spec: delivery to one session is best effort; a
    failed write is logged and does not stop the others. *)
Definition deliver (o : Outside) (f : Frame) (h : Hub) (id : nat) : Hub :=
  if socket_ok o id
  then set_wire (wire h ++ [(id, f)]) h
  else set_faults (faults h ++ [DeliveryError id]) h.

(** Modelled from the spec: [publish(kind, summary, attributes)], steps 1
    to 4 of section 4.2. The snapshot is the ids of the live set at the
    moment the append has succeeded. *)
Definition publish (o : Outside) (k : EventKind) (s : string)
    (a : gmap string Scalar) (h : Hub) : Hub * (Error + unit) :=
  match append (backend_up o) (now o)
          {| kind := k; summary := s; attributes := a |} (log h) with
  | inl e => (h, inl (BroadcastError e))
  | inr (l, stored) =>
      let snapshot := (map_to_list (live h)).*1 in
      (foldl (deliver o (event_frame stored)) (set_log l h) snapshot, inr tt)
  end.

(** ** Subscriber Session Manager (4.3) *)

(** Modelled from the spec: [onConnect]. A caller without a valid
    administrator credential is refused before a session exists; otherwise
    the session gets the next id, [recent(20)] is pushed to it in ascending
    order, and it enters the live set as [active]. *)
Definition onConnect (credential_ok : bool) (t : nat) (h : Hub)
  : Hub * (Error + nat) :=
  if credential_ok then
    let id := next_session h in
    let replay := recent 20 (log h) in
    let h1 := set_wire (wire h ++ ((fun r => (id, event_frame r)) <$> replay)) h in
    let session := {| state := active; lastPingAt := t; lastPongAt := t |} in
    (set_next_session (S id) (set_live (<[id := session]> (live h1)) h1),
     inr id)
  else (h, inl AuthRejected).

(** Modelled from the spec: [onDisconnect] removes the session from the
    live set; on a session that is not there it does nothing. *)
Definition onDisconnect (id : nat) (h : Hub) : Hub :=
  set_live (delete id (live h)) h.

(** Modelled from the spec: a ["ping"] from a live session is answered
    with a pong. *)
Definition onPing (t : nat) (id : nat) (h : Hub) : Hub :=
  match live h !! id with
  | Some s =>
      set_wire (wire h ++ [(id, pong)])
        (set_live (<[id := {| state := state s; lastPingAt := t;
                              lastPongAt := t |}]> (live h)) h)
  | None => h
  end.

(** Modelled from the spec: a session silent for longer than [timeout]
    is closed and leaves the live set. *)
Definition reap (t timeout : nat) (h : Hub) : Hub :=
  set_live (filter (fun p => t - lastPingAt p.2 <= timeout) (live h)) h.

(** ** The process over time *)

Inductive Op :=
| Publish (o : Outside) (k : EventKind) (s : string) (a : gmap string Scalar)
| Connect (credential_ok : bool) (t : nat)
| Disconnect (id : nat)
| Ping (t : nat) (id : nat)
| Reap (t timeout : nat).

Definition apply_op (h : Hub) (op : Op) : Hub :=
  match op with
  | Publish o k s a => (publish o k s a h).1
  | Connect c t => (onConnect c t h).1
  | Disconnect id => onDisconnect id h
  | Ping t id => onPing t id h
  | Reap t timeout => reap t timeout h
  end.

Definition run (ops : list Op) (h : Hub) : Hub := foldl apply_op h ops.

(** The event records session [id] has been sent, oldest first. *)
Definition received (id : nat) (h : Hub) : list StoredRecord :=
  omap (fun p => match p.2 with
                 | event_frame r => if decide (p.1 = id) then Some r else None
                 | pong => None
                 end) (wire h).

(** The record a successful [publish] stores. *)
Definition stamped (o : Outside) (k : EventKind) (s : string)
    (a : gmap string Scalar) (h : Hub) : StoredRecord :=
  {| sequence := S (length (log h));
     timestamp := now o `max` last_timestamp (log h);
     record := {| kind := k; summary := s; attributes := a |} |}.

(** The records of the publish calls that reached the store, in call
    order. *)
Definition published (ops : list Op) : list EventRecord :=
  omap (fun op => match op with
                  | Publish o k s a =>
                      if backend_up o
                      then Some {| kind := k; summary := s; attributes := a |}
                      else None
                  | _ => None
                  end) ops.

Definition reachable (h : Hub) : Prop := exists ops, h = run ops boot.

(** What holds of the process at all times: ids on the wire and in the
    live set have been handed out, the log is numbered 1, 2, 3, ..., and
    what a session has been sent is a sub-sequence of the log. *)
Record hub_ok (h : Hub) : Prop := {
  wire_ids : forall p, p ∈ wire h -> p.1 < next_session h;
  live_ids : forall id, id ∈ dom (live h) -> id < next_session h;
  log_numbered : sequence <$> log h = List.seq 1 (length (log h));
  received_logged : forall id, received id h `sublist_of` log h;
}.

(** Worlds for the examples. *)
Definition calm : Outside :=
  {| backend_up := true; now := 10; socket_ok := fun _ => true |}.
Definition dead_sockets : Outside :=
  {| backend_up := true; now := 10; socket_ok := fun _ => false |}.
Definition store_down : Outside :=
  {| backend_up := false; now := 10; socket_ok := fun _ => true |}.
Definition one_admin : Hub := run [Connect true 1] boot.

(** ** Proof support *)

Lemma received_app (id : nat) (h : Hub) (fs : list (nat * Frame)) :
  received id (set_wire (wire h ++ fs) h)
  = received id h ++ received id (set_wire fs h).
Proof. unfold received. cbn. apply omap_app. Qed.

Lemma received_replay (id i : nat) (l : list StoredRecord) (h : Hub) :
  received id (set_wire ((fun r => (i, event_frame r)) <$> l) h)
  = if decide (i = id) then l else [].
Proof.
  unfold received. cbn. induction l as [|r l IH]; cbn.
  - by case_decide.
  - rewrite IH. by case_decide.
Qed.

Lemma received_fresh (id : nat) (h : Hub) :
  (forall p, p ∈ wire h -> p.1 < id) -> received id h = [].
Proof.
  unfold received. induction (wire h) as [|[i f] l IH]; intros Hw; [done|].
  cbn. rewrite IH.
  - destruct f; [|done]. rewrite decide_False; [done|].
    specialize (Hw (i, event_frame r)). cbn in Hw.
    intros ->. assert (id < id); [|lia]. apply Hw. by left.
  - intros p Hp. apply Hw. by right.
Qed.

(** *** Fan-out *)

Section fan_out.
Context (o : Outside) (r : StoredRecord).

Lemma fan_out_frame (ids : list nat) (h : Hub) :
  let h' := foldl (deliver o (event_frame r)) h ids in
  log h' = log h /\ live h' = live h /\ next_session h' = next_session h.
Proof.
  revert h. induction ids as [|i ids IH]; intros h; [done|].
  cbn. destruct (IH (deliver o (event_frame r) h i)) as (-> & -> & ->).
  unfold deliver. by destruct (socket_ok o i).
Qed.

Lemma fan_out_received (id : nat) (ids : list nat) (h : Hub) :
  NoDup ids ->
  received id (foldl (deliver o (event_frame r)) h ids)
  = received id h ++
    (if bool_decide (id ∈ ids) && socket_ok o id then [r] else []).
Proof.
  revert h. induction ids as [|i ids IH]; intros h Hnd.
  - cbn. by rewrite app_nil_r.
  - apply NoDup_cons in Hnd as [Hi Hnd]. cbn [foldl]. rewrite IH by done.
    unfold deliver. destruct (decide (i = id)) as [->|Hne].
    + rewrite (bool_decide_eq_false_2 (id ∈ ids)) by done.
      rewrite (bool_decide_eq_true_2 (id ∈ id :: ids)) by by left.
      cbn. destruct (socket_ok o id); rewrite !app_nil_r; [|done].
      rewrite received_app. f_equal. unfold received. cbn.
      by rewrite decide_True.
    + assert (bool_decide (id ∈ i :: ids) = bool_decide (id ∈ ids)) as ->.
      { apply bool_decide_ext. rewrite elem_of_cons.
        split; [by intros [->|]|by right]. }
      f_equal. destruct (socket_ok o i); [|done].
      rewrite received_app. unfold received at 2. cbn.
      rewrite decide_False by done. by rewrite app_nil_r.
Qed.

Lemma fan_out_faults (ids : list nat) (h : Hub) :
  faults (foldl (deliver o (event_frame r)) h ids)
  = faults h
    ++ (DeliveryError <$> filter (fun i => socket_ok o i = false) ids).
Proof.
  revert h. induction ids as [|i ids IH]; intros h.
  - cbn. by rewrite app_nil_r.
  - cbn [foldl]. rewrite IH, filter_cons. unfold deliver.
    destruct (socket_ok o i); case_decide; try done.
    cbn. by rewrite <- app_assoc.
Qed.

Lemma fan_out_wire (ids : list nat) (h : Hub) (p : nat * Frame) :
  p ∈ wire (foldl (deliver o (event_frame r)) h ids) ->
  p ∈ wire h \/ p.1 ∈ ids.
Proof.
  revert h. induction ids as [|i ids IH]; intros h; [by left|].
  cbn [foldl]. intros Hp. apply IH in Hp as [Hp|Hp].
  - unfold deliver in Hp. destruct (socket_ok o i); [|by left].
    cbn in Hp. apply elem_of_app in Hp as [Hp|Hp]; [by left|].
    apply list_elem_of_singleton in Hp as ->. right. by left.
  - right. by right.
Qed.
End fan_out.

Lemma snapshot_dom (m : gmap nat Session) (id : nat) :
  id ∈ (map_to_list m).*1 <-> id ∈ dom m.
Proof.
  rewrite elem_of_dom, list_elem_of_fmap. split.
  - intros ([i x] & -> & H). apply elem_of_map_to_list in H. by exists x.
  - intros [x H]. exists (id, x). split; [done|]. by apply elem_of_map_to_list.
Qed.

(** *** What [publish] does *)

Lemma publish_down (o : Outside) (k : EventKind) (s : string)
    (a : gmap string Scalar) (h : Hub) :
  backend_up o = false ->
  publish o k s a h = (h, inl (BroadcastError PersistenceError)).
Proof. intros Hd. unfold publish, append. by rewrite Hd. Qed.

Lemma publish_up (o : Outside) (k : EventKind) (s : string)
    (a : gmap string Scalar) (h : Hub) :
  backend_up o = true ->
  publish o k s a h
  = (foldl (deliver o (event_frame (stamped o k s a h)))
       (set_log (log h ++ [stamped o k s a h]) h) (map_to_list (live h)).*1,
     inr tt).
Proof. intros Hu. unfold publish, append. by rewrite Hu. Qed.

Lemma publish_received (o : Outside) (k : EventKind) (s : string)
    (a : gmap string Scalar) (h : Hub) (id : nat) :
  backend_up o = true ->
  received id (publish o k s a h).1
  = received id h ++
    (if bool_decide (id ∈ dom (live h)) && socket_ok o id
     then [stamped o k s a h] else []).
Proof.
  intros Hu. rewrite publish_up by done. cbn [fst].
  rewrite fan_out_received by apply NoDup_fst_map_to_list.
  by rewrite (bool_decide_ext _ _ (snapshot_dom (live h) id)).
Qed.

Lemma publish_frame (o : Outside) (k : EventKind) (s : string)
    (a : gmap string Scalar) (h : Hub) :
  let h' := (publish o k s a h).1 in
  live h' = live h /\ next_session h' = next_session h /\
  log h' = log h ++ (if backend_up o then [stamped o k s a h] else []).
Proof.
  cbn zeta. destruct (backend_up o) eqn:Hu.
  - rewrite publish_up by done. cbn [fst].
    by destruct (fan_out_frame o (stamped o k s a h) (map_to_list (live h)).*1
      (set_log (log h ++ [stamped o k s a h]) h)) as (-> & -> & ->).
  - rewrite publish_down by done. by rewrite app_nil_r.
Qed.

(** *** The invariant *)

Lemma hub_ok_boot : hub_ok boot.
Proof.
  split; cbn; try done. intros p Hp. by apply elem_of_nil in Hp.
Qed.

Lemma hub_ok_publish (o : Outside) (k : EventKind) (s : string)
    (a : gmap string Scalar) (h : Hub) :
  hub_ok h -> hub_ok (publish o k s a h).1.
Proof.
  intros [Hw Hl Hn Hr].
  destruct (publish_frame o k s a h) as (El & En & Elog). cbn zeta in *.
  destruct (backend_up o) eqn:Hu;
    [|by rewrite publish_down by done].
  split.
  - intros p Hp. rewrite En. rewrite publish_up in Hp by done.
    apply fan_out_wire in Hp as [Hp|Hp]; [by apply Hw|].
    apply Hl. by apply snapshot_dom.
  - intros id. rewrite El, En. apply Hl.
  - rewrite Elog, fmap_app, length_app, Hn. cbn.
    rewrite Nat.add_1_r. by rewrite seq_S.
  - intros id. rewrite publish_received, Elog by done.
    apply sublist_app; [apply Hr|].
    destruct (_ && _); [done|apply sublist_nil_l].
Qed.

Lemma onConnect_received (t : nat) (h : Hub) (id : nat) :
  received id (onConnect true t h).1
  = received id h ++
    (if decide (next_session h = id) then recent 20 (log h) else []).
Proof.
  unfold onConnect. cbn.
  change (received id (set_wire (wire h ++
            ((fun r => (next_session h, event_frame r)) <$> recent 20 (log h))) h)
          = received id h ++
            (if decide (next_session h = id) then recent 20 (log h) else [])).
  by rewrite received_app, received_replay.
Qed.

Lemma hub_ok_onConnect (c : bool) (t : nat) (h : Hub) :
  hub_ok h -> hub_ok (onConnect c t h).1.
Proof.
  intros [Hw Hl Hn Hr]. destruct c; [|done]. split.
  - cbn. intros p Hp. apply elem_of_app in Hp as [Hp|Hp].
    + apply Hw in Hp. lia.
    + apply list_elem_of_fmap in Hp as (r & -> & _). cbn. lia.
  - cbn. intros id Hid. rewrite dom_insert_L in Hid.
    apply elem_of_union in Hid as [Hid|Hid].
    + apply elem_of_singleton in Hid as ->. lia.
    + apply Hl in Hid. lia.
  - exact Hn.
  - intros id. rewrite onConnect_received. cbn [log onConnect fst].
    change (log (onConnect true t h).1) with (log h).
    case_decide as Hid; [|rewrite app_nil_r; apply Hr].
    subst id. rewrite received_fresh by exact Hw. apply sublist_drop.
Qed.

Lemma hub_ok_step (h : Hub) (op : Op) : hub_ok h -> hub_ok (apply_op h op).
Proof.
  intros Hok. destruct op as [o k s a|c t|id|t id|t timeout]; cbn.
  - by apply hub_ok_publish.
  - by apply hub_ok_onConnect.
  - destruct Hok as [Hw Hl Hn Hr]. split; try done.
    cbn. intros i Hi. rewrite dom_delete_L in Hi.
    apply elem_of_difference in Hi as [Hi _]. by apply Hl.
  - destruct Hok as [Hw Hl Hn Hr]. unfold onPing.
    destruct (live h !! id) as [ss|] eqn:E; [|done]. split; try done.
    + cbn. intros p Hp. apply elem_of_app in Hp as [Hp|Hp]; [by apply Hw|].
      apply list_elem_of_singleton in Hp as ->. cbn.
      apply Hl. by eapply elem_of_dom_2.
    + cbn. intros i Hi. rewrite dom_insert_L in Hi.
      apply elem_of_union in Hi as [Hi|Hi]; [|by apply Hl].
      apply elem_of_singleton in Hi as ->. apply Hl. by eapply elem_of_dom_2.
    + intros i. unfold received. cbn. rewrite omap_app. cbn.
      rewrite app_nil_r. apply Hr.
  - destruct Hok as [Hw Hl Hn Hr]. split; try done.
    cbn. intros i Hi. apply Hl.
    eapply (dom_filter_subseteq (M:=gmap nat)); exact Hi.
Qed.

Lemma hub_ok_run (ops : list Op) (h : Hub) : hub_ok h -> hub_ok (run ops h).
Proof.
  revert h. induction ops as [|op ops IH]; intros h Hok; [done|].
  cbn. apply IH. by apply hub_ok_step.
Qed.

Lemma hub_ok_reachable (h : Hub) : reachable h -> hub_ok h.
Proof. intros [ops ->]. apply hub_ok_run, hub_ok_boot. Qed.

(** *** The log along a run *)

Lemma apply_op_log (h : Hub) (op : Op) :
  record <$> log (apply_op h op) = (record <$> log h) ++ published [op].
Proof.
  destruct op as [o k s a|c t|id|t id|t timeout]; cbn;
    try by rewrite app_nil_r.
  - destruct (publish_frame o k s a h) as (_ & _ & ->).
    rewrite fmap_app. by destruct (backend_up o).
  - destruct c; by rewrite app_nil_r.
  - unfold onPing. destruct (live h !! id); by rewrite app_nil_r.
Qed.

Lemma run_log (ops : list Op) (h : Hub) :
  record <$> log (run ops h) = (record <$> log h) ++ published ops.
Proof.
  revert h. induction ops as [|op ops IH]; intros h.
  - cbn. by rewrite app_nil_r.
  - cbn [run foldl]. fold (run ops (apply_op h op)).
    rewrite IH, apply_op_log, <- app_assoc. f_equal.
    unfold published. by rewrite <- omap_app.
Qed.

(** *** Order *)

Lemma StronglySorted_seq (j n : nat) : StronglySorted lt (List.seq j n).
Proof.
  revert j. induction n as [|n IH]; intros j; cbn; constructor; [apply IH|].
  apply Forall_seq. intros; lia.
Qed.

Lemma StronglySorted_sublist {A} (R : relation A) (l1 l2 : list A) :
  l1 `sublist_of` l2 -> StronglySorted R l2 -> StronglySorted R l1.
Proof.
  induction 1 as [|x l1 l2 Hs IH|x l1 l2 Hs IH]; intros Hl2; [done| |].
  - apply StronglySorted_inv in Hl2 as [H1 H2]. constructor; [by apply IH|].
    apply Forall_forall. intros y Hy.
    eapply (proj1 (Forall_forall _ _) H2), elem_of_sublist; eauto.
  - apply StronglySorted_inv in Hl2 as [H1 H2]. by apply IH.
Qed.

Lemma received_sorted (h : Hub) (id : nat) :
  hub_ok h -> StronglySorted lt (sequence <$> received id h).
Proof.
  intros [Hw Hl Hn Hr].
  eapply StronglySorted_sublist; [|apply (StronglySorted_seq 1 (length (log h)))].
  rewrite <- Hn. apply fmap_sublist, Hr.
Qed.

Lemma stamped_new (o : Outside) (k : EventKind) (s : string)
    (a : gmap string Scalar) (h : Hub) (id : nat) :
  hub_ok h -> stamped o k s a h ∉ received id h.
Proof.
  intros [Hw Hl Hn Hr] Hin.
  assert (sequence (stamped o k s a h) ∈ sequence <$> log h) as Hs.
  { apply list_elem_of_fmap_2. eapply elem_of_sublist; [exact Hin|apply Hr]. }
  rewrite Hn in Hs. apply elem_of_seq in Hs. cbn in Hs. lia.
Qed.

(** ** The claims about the server *)

(** C1. Take any history of the process and let [n] be the number of
    publish calls in it that reached the store. The log then holds exactly
    their records, in call order, numbered 1 to [n]. A session that
    connects now is admitted and is sent, as its replay, the last
    [min(20, n)] records of the log in log order: their sequence numbers
    are [n - min(20, n) + 1, ..., n]. With 25 published events these are 6
    to 25; with none the replay is empty and the connection still
    succeeds. *)
Theorem replay_is_recent_suffix (ops : list Op) (t : nat) :
  let h := run ops boot in
  let n := length (published ops) in
  let id := next_session h in
  let h' := (onConnect true t h).1 in
  record <$> log h = published ops /\
  sequence <$> log h = List.seq 1 n /\
  (onConnect true t h).2 = inr id /\
  received id h' = drop (n - Nat.min 20 n) (log h) /\
  length (received id h') = Nat.min 20 n /\
  sequence <$> received id h'
    = List.seq (S (n - Nat.min 20 n)) (Nat.min 20 n) /\
  (n = 25 ->
   sequence <$> received id h'
     = [6; 7; 8; 9; 10; 11; 12; 13; 14; 15; 16; 17; 18; 19; 20; 21; 22; 23;
        24; 25]) /\
  (n = 0 -> received id h' = []).
Proof.
  cbn zeta.
  pose proof (hub_ok_run ops boot hub_ok_boot) as [Hw Hl Hn Hr].
  pose proof (run_log ops boot) as Hlog. cbn in Hlog.
  assert (length (log (run ops boot)) = length (published ops)) as Hlen.
  { by rewrite <- Hlog, length_fmap. }
  assert (received (next_session (run ops boot))
            (onConnect true t (run ops boot)).1
          = drop (length (published ops) - Nat.min 20 (length (published ops)))
              (log (run ops boot))) as Hrec.
  { rewrite onConnect_received, decide_True by done.
    rewrite received_fresh by exact Hw. rewrite app_nil_l. unfold recent.
    rewrite Hlen. f_equal. lia. }
  assert (sequence <$> received (next_session (run ops boot))
            (onConnect true t (run ops boot)).1
          = List.seq (S (length (published ops)
                         - Nat.min 20 (length (published ops))))
              (Nat.min 20 (length (published ops)))) as Hseq.
  { rewrite Hrec, fmap_drop, Hn, Hlen, drop_seq. f_equal; lia. }
  repeat split; try done.
  - by rewrite Hn, Hlen.
  - rewrite Hrec, length_drop, Hlen. lia.
  - intros E. rewrite Hseq, E. reflexivity.
  - intros E. rewrite Hrec, E. cbn. rewrite drop_0.
    apply nil_length_inv. by rewrite Hlen.
Qed.

Lemma replay_is_recent_suffix_witness :
  sequence <$> received 0
    (onConnect true 30
       (run (replicate 25 (Publish calm admin_login "admin signed in" ∅))
          boot)).1
  = [6; 7; 8; 9; 10; 11; 12; 13; 14; 15; 16; 17; 18; 19; 20; 21; 22; 23; 24;
     25].
Proof.
  destruct (replay_is_recent_suffix
              (replicate 25 (Publish calm admin_login "admin signed in" ∅)) 30)
    as (_ & _ & _ & _ & _ & _ & H & _).
  exact (H eq_refl).
Defined.

(** C2. When the store's [append] fails, it fails with
    [PersistenceError]; [publish] then fails with [BroadcastError] caused
    by it and hands back the process untouched: nothing is written to any
    socket, no session has received anything new, and the live set is the
    same. *)
Theorem publish_append_failure (o : Outside) (k : EventKind) (s : string)
    (a : gmap string Scalar) (h : Hub) (e : Error)
    (Hfail : append (backend_up o) (now o)
               {| kind := k; summary := s; attributes := a |} (log h)
             = inl e) :
  let h' := (publish o k s a h).1 in
  e = PersistenceError /\
  publish o k s a h = (h, inl (BroadcastError PersistenceError)) /\
  wire h' = wire h /\
  (forall id, received id h' = received id h) /\
  live h' = live h /\
  log h' = log h.
Proof.
  cbn zeta. unfold append in Hfail.
  destruct (backend_up o) eqn:Hu; [done|]. simplify_eq.
  by rewrite publish_down.
Qed.

Lemma publish_append_failure_witness :
  publish store_down admin_login "admin signed in" ∅ one_admin
  = (one_admin, inl (BroadcastError PersistenceError)).
Proof.
  exact (proj1 (proj2 (publish_append_failure store_down admin_login
    "admin signed in" ∅ one_admin PersistenceError eq_refl))).
Defined.

(** C3, as the claim has it, fails: a session can be in the live set while
    writes to its socket fail. The publish then succeeds, the failure is
    logged, and that session has not received the event. *)
Lemma delivery_can_fail :
  exists (h : Hub) (o : Outside) (id : nat),
    reachable h /\ id ∈ dom (live h) /\
    (publish o user_signup "new user" ∅ h).2 = inr tt /\
    received id (publish o user_signup "new user" ∅ h).1 = [] /\
    faults (publish o user_signup "new user" ∅ h).1 = [DeliveryError id].
Proof.
  exists one_admin, dead_sockets, 0. split; [by exists [Connect true 1]|].
  split; [by vm_compute|]. repeat split.
Qed.

(** C3, amended. Let the process have any history and let a publish reach
    the store. The publish succeeds whatever the sockets do. The stored
    record is new to every session. A session of the live set whose
    socket takes the write has the record added once at the end of what
    it has received, and nothing is logged for it; one whose socket fails
    has received nothing new, and the failure is logged as a
    [DeliveryError] naming it; one that is not in the live set has
    received nothing new. The failures logged by the publish are exactly
    those of the sessions of the snapshot whose write failed. In all
    cases what a session has received is a sub-sequence of the log with
    strictly increasing sequence numbers: no record twice, and always in
    publish order. *)
Theorem fan_out_delivery (ops : list Op) (o : Outside) (k : EventKind)
    (s : string) (a : gmap string Scalar) (id : nat)
    (Hup : backend_up o = true) :
  let h := run ops boot in
  let r := stamped o k s a h in
  let h' := (publish o k s a h).1 in
  (publish o k s a h).2 = inr tt /\
  log h' = log h ++ [r] /\
  live h' = live h /\
  (r ∉ received id h) /\
  (id ∈ dom (live h) -> socket_ok o id = true ->
     received id h' = received id h ++ [r]) /\
  (id ∈ dom (live h) -> socket_ok o id = false ->
     received id h' = received id h) /\
  (id ∉ dom (live h) -> received id h' = received id h) /\
  received id h' `sublist_of` log h' /\
  StronglySorted lt (sequence <$> received id h') /\
  faults h'
    = faults h ++ (DeliveryError <$>
                     filter (fun i => socket_ok o i = false)
                       (map_to_list (live h)).*1) /\
  (id ∈ dom (live h) -> socket_ok o id = false ->
     DeliveryError id ∈ faults h' /\
     length (faults h) < length (faults h')) /\
  (DeliveryError id ∈ faults h' -> DeliveryError id ∉ faults h ->
     id ∈ dom (live h) /\ socket_ok o id = false).
Proof.
  cbn zeta.
  pose proof (hub_ok_run ops boot hub_ok_boot) as Hok.
  pose proof (hub_ok_publish o k s a _ Hok) as Hok'.
  destruct (publish_frame o k s a (run ops boot)) as (El & _ & Elog).
  cbn zeta in *. rewrite Hup in Elog.
  assert (faults (publish o k s a (run ops boot)).1
          = faults (run ops boot)
            ++ (DeliveryError <$>
                  filter (fun i => socket_ok o i = false)
                    (map_to_list (live (run ops boot))).*1)) as Ef.
  { rewrite publish_up by done. cbn [fst]. by rewrite fan_out_faults. }
  split; [by rewrite publish_up|].
  split; [done|]. split; [done|]. split; [by apply stamped_new|].
  rewrite publish_received by done.
  split; [|split; [|split; [|split; [|split; [|split; [|split]]]]]].
  - intros Hin Hs. by rewrite bool_decide_eq_true_2, Hs.
  - intros Hin Hs. by rewrite Hs, andb_false_r, app_nil_r.
  - intros Hin. by rewrite bool_decide_eq_false_2, app_nil_r.
  - rewrite <- publish_received by done. apply Hok'.
  - rewrite <- publish_received by done. by apply received_sorted.
  - exact Ef.
  - intros Hin Hs.
    assert (DeliveryError id
              ∈ DeliveryError <$>
                  filter (fun i => socket_ok o i = false)
                    (map_to_list (live (run ops boot))).*1) as Hd.
    { apply list_elem_of_fmap_2, list_elem_of_filter.
      split; [done|by apply snapshot_dom]. }
    rewrite Ef. split; [apply elem_of_app; by right|].
    rewrite length_app. apply list_elem_of_lookup in Hd as [n Hn].
    apply lookup_lt_Some in Hn. lia.
  - intros Hin Hnot. rewrite Ef in Hin.
    apply elem_of_app in Hin as [Hin|Hin]; [done|].
    apply list_elem_of_fmap in Hin as (i & [= ->] & Hi).
    apply list_elem_of_filter in Hi as [Hi1 Hi2].
    split; [by apply snapshot_dom|done].
Qed.

Lemma fan_out_delivery_witness :
  received 0 (publish calm user_signup "new user" ∅ one_admin).1
    = [stamped calm user_signup "new user" ∅ one_admin] /\
  faults (publish dead_sockets user_signup "new user" ∅ one_admin).1
    = [DeliveryError 0].
Proof.
  split.
  - destruct (fan_out_delivery [Connect true 1] calm user_signup "new user"
                ∅ 0 eq_refl) as (_ & _ & _ & _ & H & _).
    apply H; by vm_compute.
  - destruct (fan_out_delivery [Connect true 1] dead_sockets user_signup
                "new user" ∅ 0 eq_refl) as (_ & _ & _ & _ & _ & _ & _ & _ & _ & H & _).
    refine (eq_trans H _). by vm_compute.
Defined.

End ActivityFeed.
